(** * A shallow embedding of the contact manager [hw1.py]

    The development follows the layout of the Python module: the validated
    value types ([Name], [Phone], [Birthday]), the [Record_] object, the
    [AddressBook] keyed collection and the command handlers wrapped by
    [input_error].

    Conventions of the embedding.
    - Python [str] is [string]: a character is a Unicode code point below
      256 and [code c] is that code point.  [str.isspace], [str.isdigit],
      [str.lower] and the class [\d] of the [re] module are the tables of
      Python for these code points; text with a character from U+0100 on is
      outside the model.
    - A call either returns or raises: [result A] is [exn + A].  Methods that
      mutate [self] and functions that mutate the book are state transformers
      [M S A := S -> result A * S]: the state survives a raised exception,
      as it does in Python.
    - Records are objects: they live in a heap and the book's dictionary
      stores references (locations), so that an update made through a
      reference returned by [find] is seen through the book.
    - [date.today()] is an input of the query.
    - The standard [datetime] module is modelled in [Module Date] after
      CPython's [Lib/_pydatetime.py] and [Lib/_strptime.py].  [strftime]
      goes through the C library, whose rendering of years below 1000
      differs between platforms: [Platform] records which one is in use.

    The file has three parts: the program, the vocabulary of the
    specification, and the proofs. *)

From Stdlib Require Import ZArith Lia Bool Ascii String List.
From stdpp Require Import base option list strings.

Local Open Scope string_scope.

(** ** Text *)

Module Text.

Definition code (c : ascii) : N := N_of_ascii c.

(** [str.isspace] on one character: TAB, LF, VT, FF, CR, the four
    separators FS, GS, RS, US, the space, NEL (U+0085) and the no-break
    space (U+00A0).  [str.strip] and [str.split] remove these. *)
Definition is_space (c : ascii) : bool :=
  ((9 <=? code c) && (code c <=? 13) || (28 <=? code c) && (code c <=? 32)
   || (code c =? 133) || (code c =? 160))%N.

(** [str.isdigit] on one character: the decimal digits and the superscript
    digits two, three (U+00B2, U+00B3) and one (U+00B9). *)
Definition is_digit (c : ascii) : bool :=
  ((48 <=? code c) && (code c <=? 57)
   || (code c =? 178) || (code c =? 179) || (code c =? 185))%N.

Fixpoint lstrip (s : string) : string :=
  match s with
  | String c s' => if is_space c then lstrip s' else s
  | EmptyString => EmptyString
  end.

Fixpoint rstrip (s : string) : string :=
  match s with
  | String c s' =>
      match rstrip s' with
      | EmptyString => if is_space c then EmptyString else String c EmptyString
      | r => String c r
      end
  | EmptyString => EmptyString
  end.

(** [s.strip()] *)
Definition strip (s : string) : string := rstrip (lstrip s).

Fixpoint all_digits (s : string) : bool :=
  match s with
  | String c s' => is_digit c && all_digits s'
  | EmptyString => true
  end.

(** [s.isdigit()]: false on the empty string. *)
Definition isdigit (s : string) : bool :=
  match s with
  | EmptyString => false
  | _ => all_digits s
  end.

Definition digit_char (n : Z) : ascii := ascii_of_N (Z.to_N (48 + n)).
Definition digit_val (c : ascii) : Z := Z.of_N (code c) - 48.

(** [int(s)] for a string of decimal digits. *)
Fixpoint int_acc (acc : Z) (s : string) : Z :=
  match s with
  | String c s' => int_acc (acc * 10 + digit_val c) s'
  | EmptyString => acc
  end.
Definition int (s : string) : Z := int_acc 0 s.

(** ["%02d" % n] and ["%04d" % n] *)
Definition pad2 (n : Z) : string :=
  String (digit_char (n / 10)) (String (digit_char (n mod 10)) EmptyString).
Definition pad4 (n : Z) : string :=
  String (digit_char (n / 1000))
    (String (digit_char (n / 100 mod 10)) (pad2 (n mod 100))).

(** [str(n)] for a non-negative integer of at most [fuel] digits. *)
Fixpoint decimal_acc (fuel : nat) (n : Z) (acc : string) : string :=
  match fuel with
  | O => acc
  | S fuel' =>
      let acc' := String (digit_char (n mod 10)) acc in
      if (n <? 10)%Z then acc' else decimal_acc fuel' (n / 10) acc'
  end.
Definition decimal (n : Z) : string := decimal_acc 20 n EmptyString.

End Text.

(** ** Exceptions, results and the state monad *)

Inductive exn_class : Set :=
  KeyError | ValueError | IndexError | TypeError | OverflowError | ReferenceError.

Record exn := Exn { exn_cls : exn_class; exn_msg : string }.

Definition result (A : Type) : Type := exn + A.
Definition ok {A} (a : A) : result A := inr a.
Definition err {A} (c : exn_class) (msg : string) : result A := inl (Exn c msg).

Definition is_ok {A} (r : result A) : bool :=
  match r with inr _ => true | inl _ => false end.

Definition M (S A : Type) : Type := S -> result A * S.

Definition ret {S A} (a : A) : M S A := fun s => (inr a, s).
Definition raise {S A} (c : exn_class) (msg : string) : M S A :=
  fun s => (inl (Exn c msg), s).
Definition bind {S A B} (m : M S A) (k : A -> M S B) : M S B :=
  fun s => match m s with
           | (inr a, s') => k a s'
           | (inl e, s') => (inl e, s')
           end.
Definition lift {S A} (r : result A) : M S A := fun s => (r, s).
Definition get {S} : M S S := fun s => (inr s, s).
Definition put {S} (s : S) : M S unit := fun _ => (inr tt, s).
Definition modify {S} (f : S -> S) : M S unit := fun s => (inr tt, f s).

Declare Scope py_scope.
Delimit Scope py_scope with py.
Notation "x <- m ;; k" := (bind m (fun x => k))
  (at level 100, m at next level, right associativity) : py_scope.
Notation "m ;;; k" := (bind m (fun _ => k))
  (at level 100, right associativity) : py_scope.

(** The C library behind [strftime]: whether ["%Y"] writes a year below 1000
    with leading zeros (as the documentation of [datetime] shows) or without
    (as glibc does). *)
Class Platform := { zero_pads_year : bool }.

(** ** The [datetime.date] type *)

Module Date.
Import Text.
Local Open Scope Z_scope.

Record date := mkdate { year : Z; month : Z; day : Z }.

Definition MINYEAR : Z := 1.
Definition MAXYEAR : Z := 9999.
Definition _MAXORDINAL : Z := 3652059.

Definition _DAYS_IN_MONTH : list Z :=
  [-1; 31; 28; 31; 30; 31; 30; 31; 31; 30; 31; 30; 31].
Definition _DAYS_BEFORE_MONTH : list Z :=
  [-1; 0; 31; 59; 90; 120; 151; 181; 212; 243; 273; 304; 334].

Definition table (t : list Z) (i : Z) : Z := nth (Z.to_nat i) t (-1).

Definition _is_leap (y : Z) : bool :=
  (y mod 4 =? 0) && (negb (y mod 100 =? 0) || (y mod 400 =? 0)).

Definition _days_before_year (y : Z) : Z :=
  let y := y - 1 in y * 365 + y / 4 - y / 100 + y / 400.

Definition _days_in_month (y m : Z) : Z :=
  if (m =? 2) && _is_leap y then 29 else table _DAYS_IN_MONTH m.

Definition _days_before_month (y m : Z) : Z :=
  table _DAYS_BEFORE_MONTH m + (if (2 <? m) && _is_leap y then 1 else 0).

Definition _ymd2ord (y m d : Z) : Z :=
  _days_before_year y + _days_before_month y m + d.

Definition _DI400Y : Z := 146097.
Definition _DI100Y : Z := 36524.
Definition _DI4Y : Z := 1461.

(** The second half of [_ord2ymd]: month and day from the day of the year
    (counted from 0), given whether the year is a leap year. *)
Definition _ord2md (n : Z) (leapyear : bool) : Z * Z :=
  let m := Z.shiftr (n + 50) 5 in
  let preceding :=
    table _DAYS_BEFORE_MONTH m + (if (2 <? m) && leapyear then 1 else 0) in
  if n <? preceding then
    let m := m - 1 in
    let preceding :=
      preceding
      - (table _DAYS_IN_MONTH m + (if (m =? 2) && leapyear then 1 else 0)) in
    (m, n - preceding + 1)
  else (m, n - preceding + 1).

Definition _ord2ymd (n : Z) : Z * Z * Z :=
  let n := n - 1 in
  let n400 := n / _DI400Y in
  let n := n mod _DI400Y in
  let y := n400 * 400 + 1 in
  let n100 := n / _DI100Y in
  let n := n mod _DI100Y in
  let n4 := n / _DI4Y in
  let n := n mod _DI4Y in
  let n1 := n / 365 in
  let n := n mod 365 in
  let y := y + n100 * 100 + n4 * 4 + n1 in
  if (n1 =? 4) || (n100 =? 4) then (y - 1, 12, 31)
  else
    let leapyear := (n1 =? 3) && (negb (n4 =? 24) || (n100 =? 3)) in
    let '(m, d) := _ord2md n leapyear in (y, m, d).

(** The constructor [date(year, month, day)] with its range checks. *)
Definition date_init (y m d : Z) : result date :=
  if negb ((MINYEAR <=? y) && (y <=? MAXYEAR)) then
    err ValueError ("year " +:+ decimal y +:+ " is out of range")
  else if negb ((1 <=? m) && (m <=? 12)) then
    err ValueError "month must be in 1..12"
  else if negb ((1 <=? d) && (d <=? _days_in_month y m)) then
    err ValueError "day is out of range for month"
  else ok (mkdate y m d).

(** The invariant of every [date] object. *)
Definition date_ok (d : date) : Prop :=
  MINYEAR <= year d <= MAXYEAR /\ 1 <= month d <= 12
  /\ 1 <= day d <= _days_in_month (year d) (month d).

(** [d.replace(year=y)] *)
Definition replace_year (d : date) (y : Z) : result date :=
  date_init y (month d) (day d).

Definition toordinal (d : date) : Z := _ymd2ord (year d) (month d) (day d).

Definition fromordinal (n : Z) : date :=
  let '(y, m, d) := _ord2ymd n in mkdate y m d.

(** [d.weekday()]: Monday is 0, Sunday is 6. *)
Definition weekday (d : date) : Z := (toordinal d + 6) mod 7.

(** [a < b]: the comparison of the triples (year, month, day). *)
Definition date_ltb (a b : date) : bool :=
  (year a <? year b)
  || (year a =? year b)
     && ((month a <? month b) || (month a =? month b) && (day a <? day b)).

(** [(a - b).days] *)
Definition days_between (a b : date) : Z := toordinal a - toordinal b.

(** [d + timedelta(days=n)] *)
Definition add_days (d : date) (n : Z) : result date :=
  let o := toordinal d + n in
  if (0 <? o) && (o <=? _MAXORDINAL) then ok (fromordinal o)
  else err OverflowError "date value out of range".

(** *** [strftime] for the directives [%d], [%m] and [%Y] *)

Section Strftime.
Context `{Platform}.

Definition directive (c : ascii) (d : date) : string :=
  if decide (c = "d"%char) then pad2 (day d)
  else if decide (c = "m"%char) then pad2 (month d)
  else if decide (c = "Y"%char) then
    (if zero_pads_year then pad4 (year d) else decimal (year d))
  else String "%" (String c EmptyString).

Fixpoint strftime (d : date) (fmt : string) : string :=
  match fmt with
  | String "%" (String c rest) => directive c d +:+ strftime d rest
  | String c rest => String c (strftime d rest)
  | EmptyString => EmptyString
  end.
End Strftime.

(** *** [strptime]: the regular expression built from the format

    [_strptime.py] turns each directive into a named group of ordered
    alternatives and every other character into itself; the resulting
    expression is matched at the start of the data with backtracking. *)

Inductive cls := CRange (lo hi : ascii) | CChar (c : ascii).

Definition cls_match (k : cls) (c : ascii) : bool :=
  match k with
  | CRange lo hi => ((code lo <=? code c) && (code c <=? code hi))%N
  | CChar c' => (code c =? code c')%N
  end.

Definition alt := list cls.

Inductive re_item := Group (name : ascii) (alts : list alt) | Literal (c : ascii).

(** [\d]: the decimal digits.  Below U+0100 these are 0..9; the superscript
    digits are digits for [str.isdigit] but not decimal. *)
Definition digit_cls : cls := CRange "0" "9".

(** [3[0-1]|[1-2]\d|0[1-9]|[1-9]| [1-9]] *)
Definition re_d : list alt :=
  [ [CChar "3"; CRange "0" "1"]; [CRange "1" "2"; digit_cls];
    [CChar "0"; CRange "1" "9"]; [CRange "1" "9"]; [CChar " "; CRange "1" "9"] ].
(** [1[0-2]|0[1-9]|[1-9]] *)
Definition re_m : list alt :=
  [ [CChar "1"; CRange "0" "2"]; [CChar "0"; CRange "1" "9"]; [CRange "1" "9"] ].
(** [\d\d\d\d] *)
Definition re_Y : list alt := [ [digit_cls; digit_cls; digit_cls; digit_cls] ].

Fixpoint format_regex (fmt : string) : option (list re_item) :=
  match fmt with
  | String "%" (String c rest) =>
      g ← (if decide (c = "d"%char) then Some (Group c re_d)
           else if decide (c = "m"%char) then Some (Group c re_m)
           else if decide (c = "Y"%char) then Some (Group c re_Y)
           else None);
      r ← format_regex rest;
      Some (g :: r)
  | String c rest => r ← format_regex rest; Some (Literal c :: r)
  | EmptyString => Some []
  end.

Fixpoint match_alt (a : alt) (s : string) : option (string * string) :=
  match a, s with
  | [], _ => Some (EmptyString, s)
  | k :: a', String c s' =>
      if cls_match k c then
        match match_alt a' s' with
        | Some (m, rest) => Some (String c m, rest)
        | None => None
        end
      else None
  | _ :: _, EmptyString => None
  end.

Definition first_some {A B} (f : A -> option B) (l : list A) : option B :=
  fold_right (fun a acc => match f a with Some b => Some b | None => acc end)
             None l.

(** Captured groups and the unmatched rest of the data. *)
Fixpoint match_seq (items : list re_item) (s : string)
  : option (list (ascii * string) * string) :=
  match items with
  | [] => Some ([], s)
  | Literal c :: r =>
      match s with
      | String c' s' => if (code c' =? code c)%N then match_seq r s' else None
      | EmptyString => None
      end
  | Group name alts :: r =>
      first_some
        (fun a => match match_alt a s with
                  | Some (m, s1) =>
                      match match_seq r s1 with
                      | Some (caps, rest) => Some ((name, m) :: caps, rest)
                      | None => None
                      end
                  | None => None
                  end)
        alts
  end.

Definition found (caps : list (ascii * string)) (name : ascii) (default : Z) : Z :=
  match list_find (fun p => fst p = name) caps with
  | Some (_, (_, m)) => int m
  | None => default
  end.

(** [datetime.strptime(data, fmt).date()] *)
Definition strptime_date (data fmt : string) : result date :=
  match format_regex fmt with
  | None => err ValueError "bad directive in format"
  | Some items =>
      match match_seq items data with
      | None => err ValueError "time data does not match format"
      | Some (caps, rest) =>
          match rest with
          | String _ _ => err ValueError ("unconverted data remains: " +:+ rest)
          | EmptyString =>
              date_init (found caps "Y" 1900) (found caps "m" 1) (found caps "d" 1)
          end
      end
  end.

End Date.

(** ** Validated value types

    The [isinstance(value, str)] guards of the constructors cannot fail here:
    the argument has type [string]. *)

Import Text Date.

Record Name := mkName { name_value : string }.

Definition Name_init (value : string) : result Name :=
  let name := strip value in
  match name with
  | EmptyString => err ValueError "Name cannot be empty."
  | _ => ok (mkName name)
  end.

Record Phone := mkPhone { phone_value : string }.

Definition Phone_init (value : string) : result Phone :=
  let digits := strip value in
  if negb (isdigit digits) || negb (String.length digits =? 10)%nat then
    err ValueError "Phone must contain exactly 10 digits."
  else ok (mkPhone digits).

Record Birthday := mkBirthday { birthday_value : date }.

Definition Birthday_init (value : string) : result Birthday :=
  match strptime_date (strip value) "%d.%m.%Y" with
  | inr d => ok (mkBirthday d)
  | inl e =>
      match exn_cls e with
      | ValueError => err ValueError "Birthday date must be in 'DD.MM.YYYY' format."
      | _ => inl e
      end
  end.

(** [Birthday.__str__] *)
Definition Birthday_str `{Platform} (b : Birthday) : string :=
  strftime (birthday_value b) "%d.%m.%Y".

(** ** Record *)

Record Record_ := mkRecord {
  name : Name;
  phones : list Phone;
  birthday : option Birthday
}.

Definition set_phones (f : list Phone -> list Phone) (self : Record_) : Record_ :=
  mkRecord (name self) (f (phones self)) (birthday self).
Definition set_birthday (b : option Birthday) (self : Record_) : Record_ :=
  mkRecord (name self) (phones self) b.

Definition Record_init (nm : string) : result Record_ :=
  match Name_init nm with
  | inr n => ok (mkRecord n [] None)
  | inl e => inl e
  end.

Local Open Scope py_scope.

Definition edit_birthday (birthday_str : string) : M Record_ unit :=
  b <- lift (Birthday_init birthday_str) ;;
  modify (set_birthday (Some b)).

Definition remove_birthday : M Record_ unit := modify (set_birthday None).

Definition add_phone (phone_str : string) : M Record_ unit :=
  phone <- lift (Phone_init phone_str) ;;
  modify (set_phones (fun l => (l ++ [phone])%list)).

(** The loops of [remove_phone] and [edit_phone] walk [enumerate(self.phones)];
    [i] is the index of the head of [rest]. *)
Fixpoint remove_phone_loop (phone_str : string) (i : nat) (rest : list Phone)
  : M Record_ unit :=
  match rest with
  | ph :: rest' =>
      if decide (phone_value ph = phone_str) then modify (set_phones (delete i))
      else remove_phone_loop phone_str (S i) rest'
  | [] =>
      self <- get ;;
      raise ValueError ("Phone '" +:+ phone_str +:+ "' not found for contact '"
                        +:+ name_value (name self) +:+ "'.")
  end.

Definition remove_phone (phone_str : string) : M Record_ unit :=
  self <- get ;; remove_phone_loop phone_str 0 (phones self).

Fixpoint edit_phone_loop (old_phone new_phone : string) (i : nat) (rest : list Phone)
  : M Record_ unit :=
  match rest with
  | ph :: rest' =>
      if decide (phone_value ph = old_phone) then
        new_ph <- lift (Phone_init new_phone) ;;
        modify (set_phones (fun l => <[i := new_ph]> l))
      else edit_phone_loop old_phone new_phone (S i) rest'
  | [] =>
      self <- get ;;
      raise ValueError ("Old phone '" +:+ old_phone +:+ "' not found for contact '"
                        +:+ name_value (name self) +:+ "'.")
  end.

Definition edit_phone (old_phone new_phone : string) : M Record_ unit :=
  self <- get ;; edit_phone_loop old_phone new_phone 0 (phones self).

Fixpoint find_phone_loop (phone_str : string) (rest : list Phone) : option Phone :=
  match rest with
  | ph :: rest' =>
      if decide (phone_value ph = phone_str) then Some ph
      else find_phone_loop phone_str rest'
  | [] => None
  end.

Definition find_phone (phone_str : string) : M Record_ (option Phone) :=
  self <- get ;; ret (find_phone_loop phone_str (phones self)).

(** ** The insertion-ordered dictionary behind [UserDict]

    Keys are unique: assigning to a present key replaces its value where it
    stands, assigning to a new key appends, and [del] removes the key. *)

Section Dict.
Context {V : Type}.

Fixpoint dict_get (k : string) (d : list (string * V)) : option V :=
  match d with
  | (k', v) :: d' => if decide (k' = k) then Some v else dict_get k d'
  | [] => None
  end.

Fixpoint dict_set (k : string) (v : V) (d : list (string * V)) : list (string * V) :=
  match d with
  | (k', v') :: d' =>
      if decide (k' = k) then (k, v) :: d' else (k', v') :: dict_set k v d'
  | [] => [(k, v)]
  end.

Definition dict_del (k : string) (d : list (string * V)) : list (string * V) :=
  filter (fun p => p.1 <> k) d.

Definition dict_keys (d : list (string * V)) : list string := d.*1.
Definition dict_values (d : list (string * V)) : list V := d.*2.
End Dict.

(** ** The program state: the objects and the book *)

(** References to [Record] objects. *)
Abbreviation loc := nat.

Record State := mkState {
  heap : list Record_;          (* the [Record] objects, by reference *)
  data : list (string * loc)    (* [AddressBook.data] *)
}.

Definition empty_state : State := mkState [] [].

Definition dangling {A} : result A := err ReferenceError "no such object".

(** Reading the object behind a reference. *)
Definition deref (l : loc) : M State Record_ :=
  fun st => match heap st !! l with
            | Some r => (ok r, st)
            | None => (dangling, st)
            end.

(** Running a method on the object behind a reference. *)
Definition at_ {A} (l : loc) (m : M Record_ A) : M State A :=
  fun st => match heap st !! l with
            | Some r => let '(res, r') := m r in
                        (res, mkState (<[l := r']> (heap st)) (data st))
            | None => (dangling, st)
            end.

(** [Record(name)]: a new object. *)
Definition new_Record (nm : string) : M State loc :=
  fun st => match Record_init nm with
            | inr r => (ok (length (heap st)), mkState (heap st ++ [r])%list (data st))
            | inl e => (inl e, st)
            end.

Definition set_data (f : list (string * loc) -> list (string * loc)) (st : State) : State :=
  mkState (heap st) (f (data st)).

(** The dictionaries appended to [upcoming]. *)
Record upcoming_entry := mkEntry { entry_name : string; entry_birthday : string }.

Module AddressBook.

Definition add_record (record : loc) : M State unit :=
  r <- deref record ;;
  modify (set_data (dict_set (name_value (name r)) record)).

Definition find (nm : string) : M State (option loc) :=
  st <- get ;; ret (dict_get nm (data st)).

Definition delete (nm : string) : M State bool :=
  st <- get ;;
  match dict_get nm (data st) with
  | Some _ => modify (set_data (dict_del nm)) ;;; ret true
  | None => ret false
  end.

Section Upcoming.
Context `{Platform}.

(** The body of the [for] loop for one record with a birthday: the
    entry to append, if any. *)
Definition upcoming_step (today : date) (record : Record_) (b : Birthday)
  : result (option upcoming_entry) :=
  let bday := birthday_value b in
  match replace_year bday (year today) with
  | inl e => inl e
  | inr this_year_bday =>
      match (if date_ltb this_year_bday today
             then replace_year this_year_bday (year today + 1)
             else ok this_year_bday) with
      | inl e => inl e
      | inr this_year_bday =>
          let delta_days := days_between this_year_bday today in
          if ((0 <=? delta_days) && (delta_days <=? 7))%Z then
            match (if (5 <=? weekday this_year_bday)%Z
                   then add_days this_year_bday (7 - weekday this_year_bday)
                   else ok this_year_bday) with
            | inl e => inl e
            | inr congratulate_day =>
                ok (Some (mkEntry (name_value (name record))
                                  (strftime congratulate_day "%Y-%m-%d")))
            end
          else ok None
      end
  end.

Fixpoint upcoming_loop (today : date) (records : list loc)
         (upcoming : list upcoming_entry) : M State (list upcoming_entry) :=
  match records with
  | [] => ret upcoming
  | l :: rest =>
      record <- deref l ;;
      match birthday record with
      | None => upcoming_loop today rest upcoming
      | Some b =>
          e <- lift (upcoming_step today record b) ;;
          match e with
          | Some entry => upcoming_loop today rest (upcoming ++ [entry])%list
          | None => upcoming_loop today rest upcoming
          end
      end
  end.

Definition get_upcoming_birthdays (today : date) : M State (list upcoming_entry) :=
  st <- get ;; upcoming_loop today (dict_values (data st)) [].
End Upcoming.

End AddressBook.

(** ** Command handlers *)

Definition input_error (func : list string -> M State string) (args : list string)
  : State -> string * State :=
  fun st =>
    match func args st with
    | (inr s, st') => (s, st')
    | (inl e, st') =>
        (match exn_cls e with
         | KeyError => "Contact not found. Please check the name."
         | ValueError => "Give me name and phone please."
         | IndexError => "Enter user name."
         | _ => "Unexpected error: " +:+ exn_msg e
         end, st')
    end.

Definition not_enough (expected : Z) (args : list string) : string :=
  "not enough values to unpack (expected " +:+ decimal expected +:+ ", got "
  +:+ decimal (Z.of_nat (length args)) +:+ ")".
Definition too_many (expected : Z) : string :=
  "too many values to unpack (expected " +:+ decimal expected +:+ ")".

(** [a, b = args] *)
Definition unpack2 (args : list string) : result (string * string) :=
  match args with
  | [a; b] => ok (a, b)
  | [] | [_] => err ValueError (not_enough 2 args)
  | _ => err ValueError (too_many 2)
  end.

(** [a, b, c = args] *)
Definition unpack3 (args : list string) : result (string * string * string) :=
  match args with
  | [a; b; c] => ok (a, b, c)
  | [] | [_] | [_; _] => err ValueError (not_enough 3 args)
  | _ => err ValueError (too_many 3)
  end.

(** [args[0]] *)
Definition index0 (args : list string) : result string :=
  match args with
  | a :: _ => ok a
  | [] => err IndexError "list index out of range"
  end.

Definition newline : string := String (ascii_of_nat 10) EmptyString.

Fixpoint join (sep : string) (l : list string) : string :=
  match l with
  | [] => EmptyString
  | [x] => x
  | x :: l' => x +:+ sep +:+ join sep l'
  end.

Definition add_contact (args : list string) : M State string :=
  p <- lift (unpack2 args) ;;
  let '(nm, phone) := p in
  existing_record <- AddressBook.find nm ;;
  match existing_record with
  | Some l =>
      at_ l (add_phone phone) ;;;
      ret ("Added phone '" +:+ phone +:+ "' to existing contact '" +:+ nm +:+ "'.")
  | None =>
      record <- new_Record nm ;;
      at_ record (add_phone phone) ;;;
      AddressBook.add_record record ;;;
      ret ("Contact '" +:+ nm +:+ "' with phone '" +:+ phone +:+ "' added.")
  end.

Definition add_birthday (args : list string) : M State string :=
  p <- lift (unpack2 args) ;;
  let '(nm, bday) := p in
  existing_record <- AddressBook.find nm ;;
  match existing_record with
  | None => raise KeyError EmptyString
  | Some l =>
      at_ l (edit_birthday bday) ;;;
      ret ("Added birthday '" +:+ bday +:+ "' to existing contact '" +:+ nm +:+ "'.")
  end.

Definition change_contact (args : list string) : M State string :=
  p <- lift (unpack3 args) ;;
  let '(nm, old_phone, new_phone) := p in
  record <- AddressBook.find nm ;;
  match record with
  | None => raise KeyError EmptyString
  | Some l =>
      at_ l (edit_phone old_phone new_phone) ;;;
      ret ("Contact '" +:+ nm +:+ "': phone '" +:+ old_phone +:+ "' changed to '"
           +:+ new_phone +:+ "'.")
  end.

Section Handlers.
Context `{Platform}.

(** [str(record.birthday)]: the attribute is [None] or a [Birthday]. *)
Definition str_birthday (b : option Birthday) : string :=
  match b with
  | None => "None"
  | Some b => Birthday_str b
  end.

Definition show_birthday (args : list string) : M State string :=
  nm <- lift (index0 args) ;;
  existing_record <- AddressBook.find nm ;;
  match existing_record with
  | None => raise KeyError EmptyString
  | Some l =>
      r <- deref l ;;
      ret (nm +:+ ": " +:+ str_birthday (birthday r) +:+ ".")
  end.

Definition birthdays (today : date) (args : list string) : M State string :=
  upcoming <- AddressBook.get_upcoming_birthdays today ;;
  ret (join newline
         ("Upcoming birthdays (next 7 days):"
          :: map (fun contact => entry_name contact +:+ " -> " +:+ entry_birthday contact)
                 upcoming)).
End Handlers.

(** ** Rendering records and the book *)

(** ["; ".join(p.value for p in phones) if phones else "No phones"] *)
Definition phones_str (ps : list Phone) : string :=
  match ps with
  | [] => "No phones"
  | _ => join "; " (map phone_value ps)
  end.

(** A comprehension over the records of the book, in the order of the
    dictionary. *)
Fixpoint for_each {A} (f : Record_ -> A) (records : list loc) : M State (list A) :=
  match records with
  | [] => ret []
  | l :: rest =>
      r <- deref l ;;
      xs <- for_each f rest ;;
      ret (f r :: xs)
  end.

Section Str.
Context `{Platform}.

(** [Record.__str__] *)
Definition Record_str (self : Record_) : string :=
  "Contact name: " +:+ name_value (name self) +:+ ", phones: "
  +:+ phones_str (phones self) +:+ ", birthday:" +:+ str_birthday (birthday self).

(** [AddressBook.__str__] *)
Definition AddressBook_str : M State string :=
  st <- get ;;
  match data st with
  | [] => ret "<AddressBook: empty>"
  | _ =>
      lines <- for_each Record_str (dict_values (data st)) ;;
      ret (join newline lines)
  end.
End Str.

(** ** The remaining handlers *)

Definition show_phone (args : list string) : M State string :=
  nm <- lift (index0 args) ;;
  record <- AddressBook.find nm ;;
  match record with
  | None => raise KeyError EmptyString
  | Some l =>
      r <- deref l ;;
      ret (nm +:+ ": " +:+ phones_str (phones r))
  end.

Definition show_all (args : list string) : M State string :=
  st <- get ;;
  match data st with
  | [] => ret "No contacts saved."
  | _ =>
      lines <- for_each (fun record =>
                           name_value (name record) +:+ ": phones: "
                           +:+ phones_str (phones record))
                        (dict_values (data st)) ;;
      ret (join newline lines)
  end.

(** ** Parsing a line of input *)

(** [str.lower] on one character: the letters A..Z and the capital letters
    of U+00C0..U+00DE (the multiplication sign U+00D7 is not a letter). *)
Definition lower_char (c : ascii) : ascii :=
  if ((65 <=? code c) && (code c <=? 90)
      || (192 <=? code c) && (code c <=? 222) && negb (code c =? 215))%N
  then ascii_of_N (code c + 32) else c.

Fixpoint lower (s : string) : string :=
  match s with
  | String c s' => String (lower_char c) (lower s')
  | EmptyString => EmptyString
  end.

(** [s.split()]: the maximal runs of characters that are not whitespace. *)
Fixpoint split (s : string) : list string :=
  match s with
  | EmptyString => []
  | String c s' =>
      if is_space c then split s'
      else
        match s' with
        | EmptyString => [String c EmptyString]
        | String c' _ =>
            if is_space c' then String c EmptyString :: split s'
            else
              match split s' with
              | t :: ts => String c t :: ts
              | [] => [String c EmptyString]
              end
        end
  end.

Definition parse_input (user_input : string) : string * list string :=
  match split (strip user_input) with
  | [] => (EmptyString, [])
  | cmd :: args => (lower cmd, args)
  end.

(** ** The program *)

Definition help_text : string :=
  "Available commands:" +:+ newline
  +:+ "  add [name] [phone]    - add a new contact" +:+ newline
  +:+ "  change [name] [old phone] [phone] - change phone of existing contact" +:+ newline
  +:+ "  phone [name]          - show phone of contact" +:+ newline
  +:+ "  add-birthday [name] [birthday] - add contact's birthday" +:+ newline
  +:+ "  show-birthday [name] - show contact's birthday" +:+ newline
  +:+ "  birthdays - show birthdays for the next 7 days with the dates when they should be congratulated." +:+ newline
  +:+ "  all                   - show all contacts" +:+ newline
  +:+ "  hello                 - greet" +:+ newline
  +:+ "  exit / close / good bye - exit the program" +:+ newline.

Section Program.
Context `{Platform}.

(** [command_handlers.get(command)], with the date of the day for
    [birthdays]. *)
Definition command_handlers (today : date) (command : string)
  : option (list string -> State -> string * State) :=
  if decide (command = "add") then Some (input_error add_contact)
  else if decide (command = "change") then Some (input_error change_contact)
  else if decide (command = "phone") then Some (input_error show_phone)
  else if decide (command = "all") then Some (input_error show_all)
  else if decide (command = "add-birthday") then Some (input_error add_birthday)
  else if decide (command = "show-birthday") then Some (input_error show_birthday)
  else if decide (command = "birthdays") then Some (input_error (birthdays today))
  else None.

Definition is_exit (command : string) : bool :=
  bool_decide (command = "exit") || bool_decide (command = "close")
  || bool_decide (command = "goodbye").

(** One turn of the [while] loop on a line read by [input]: the lines
    printed, the state, and whether the loop is left. *)
Definition loop_body (today : date) (user_input : string) (st : State)
  : list string * State * bool :=
  let '(command, args) := parse_input user_input in
  if is_exit command then (["Good bye!"], st, true)
  else if decide (command = "") then ([], st, false)
  else if decide (command = "hello") then (["How can I help you?"], st, false)
  else if decide (command = "help") then ([help_text], st, false)
  else
    match command_handlers today command with
    | Some handler =>
        let '(result, st') := handler args st in ([result], st', false)
    | None =>
        (["Invalid command. Type 'help' to see available commands."], st, false)
    end.

(** The loop on the lines typed by the user, each with the date of the day
    it is typed.  When the lines run out before an exit command, [input]
    ends the program. *)
Fixpoint main_loop (inputs : list (date * string)) (st : State)
  : list string * State :=
  match inputs with
  | [] => ([], st)
  | (today, user_input) :: rest =>
      let '(out, st', stop) := loop_body today user_input st in
      if stop then (out, st')
      else let '(outs, st'') := main_loop rest st' in ((out ++ outs)%list, st'')
  end.

(** The program: the lines it prints and the final book. *)
Definition main (inputs : list (date * string)) : list string * State :=
  let '(outs, st) := main_loop inputs empty_state in
  ("Welcome to the assistant bot!" :: help_text :: outs, st).
End Program.

(** ** Specification vocabulary *)

Definition chars (s : string) : list ascii := list_ascii_of_string s.

(** Every character of [s] is one of the decimal digits 0..9. *)
Definition decimal_digits (s : string) : Prop :=
  ∀ c, In c (chars s) → (48 <= code c <= 57)%N.

(** [s] consists of exactly ten decimal digits. *)
Definition ten_digits (s : string) : Prop :=
  String.length s = 10 ∧ decimal_digits s.

(** The same as a test. *)
Definition ten_digitsb (s : string) : bool :=
  (String.length s =? 10)%nat
  && forallb (λ c, (48 <=? code c) && (code c <=? 57))%N (chars s).

(** Ten superscript twos (U+00B2). *)
Definition superscript_twos : string :=
  string_of_list_ascii (replicate 10 (ascii_of_N 178)).

(** Every character of [s] is in the ASCII range. *)
Definition ascii_text (s : string) : Prop :=
  ∀ c, In c (chars s) → (code c < 128)%N.

Definition no_space (s : string) : Prop :=
  ∀ c, In c (chars s) → is_space c = false.

(** *** Written dates *)

Definition dmy_text (dd mm yyyy : string) : string :=
  dd +:+ "." +:+ mm +:+ "." +:+ yyyy.

(** A date of the calendar, in the range of years [datetime] supports. *)
Definition calendar_date (y m d : Z) : Prop :=
  (1 <= y <= 9999 ∧ 1 <= m <= 12 ∧ 1 <= d <= _days_in_month y m)%Z.

(** The admitted widths of the day and month fields: two digits, or one or
    two digits. *)
Definition width (padded : bool) (n : nat) : Prop :=
  if padded then n = 2 else n = 1 ∨ n = 2.

(** [s] writes the calendar date [d] in day.month.year order with a
    four-digit year. *)
Definition written_date (padded : bool) (s : string) (d : date) : Prop :=
  ∃ dd mm yyyy,
    s = dmy_text dd mm yyyy
    ∧ decimal_digits dd ∧ decimal_digits mm ∧ decimal_digits yyyy
    ∧ width padded (String.length dd) ∧ width padded (String.length mm)
    ∧ String.length yyyy = 4
    ∧ calendar_date (int yyyy) (int mm) (int dd)
    ∧ d = mkdate (int yyyy) (int mm) (int dd).

(** Two-digit day, two-digit month, four-digit year. *)
Definition DD_MM_YYYY : string → date → Prop := written_date true.
(** One- or two-digit day and month, four-digit year. *)
Definition D_M_YYYY : string → date → Prop := written_date false.

(** *** Occurrences of a birthday *)

Definition with_year (b : date) (y : Z) : date := mkdate y (month b) (day b).

(** The birthday with its year replaced by today's year, advanced to the
    next year if that date is strictly before today. *)
Definition next_occurrence (b today : date) : date :=
  if date_ltb (with_year b (year today)) today
  then with_year b (year today + 1)
  else with_year b (year today).

(** The occurrence lies between 0 and 7 days after today. *)
Definition in_window (b today : date) : Prop :=
  (0 <= days_between (next_occurrence b today) today <= 7)%Z.

(** The text YYYY-MM-DD of a date. *)
Definition iso_text (d : date) : string :=
  pad4 (year d) +:+ "-" +:+ pad2 (month d) +:+ "-" +:+ pad2 (day d).

(** *** Histories of the book *)

Inductive op :=
| NewRecord (nm : string)
| AddRecord (l : loc)
| Delete (nm : string)
| AddPhone (l : loc) (phone_str : string)
| RemovePhone (l : loc) (phone_str : string)
| EditPhone (l : loc) (old_phone new_phone : string)
| EditBirthday (l : loc) (birthday_str : string)
| RemoveBirthday (l : loc).

(** The state after an operation, whether it returned or raised. *)
Definition exec (o : op) (st : State) : State :=
  match o with
  | NewRecord nm => (new_Record nm st).2
  | AddRecord l => (AddressBook.add_record l st).2
  | Delete nm => (AddressBook.delete nm st).2
  | AddPhone l p => (at_ l (add_phone p) st).2
  | RemovePhone l p => (at_ l (remove_phone p) st).2
  | EditPhone l o n => (at_ l (edit_phone o n) st).2
  | EditBirthday l b => (at_ l (edit_birthday b) st).2
  | RemoveBirthday l => (at_ l remove_birthday st).2
  end.

Inductive reachable : State → Prop :=
| reachable_empty : reachable empty_state
| reachable_step o st : reachable st → reachable (exec o st).

(** Every key of the book is the name of the record stored under it. *)
Definition key_is_name (st : State) : Prop :=
  ∀ k l, In (k, l) (data st) →
         ∃ r, heap st !! l = Some r ∧ name_value (name r) = k.

(** The contact [nm] is in the book, and [r] is its record. *)
Definition contact (st : State) (nm : string) (r : Record_) : Prop :=
  ∃ l, dict_get nm (data st) = Some l ∧ heap st !! l = Some r.

(** *** Errors of [edit_phone] *)

(** The error raised when no phone equals [old_phone]. *)
Definition not_found_old (old_phone : string) (self : Record_) : exn :=
  Exn ValueError ("Old phone '" +:+ old_phone +:+ "' not found for contact '"
                  +:+ name_value (name self) +:+ "'.").

(** *** Methods and states that keep the names of the records *)

Definition keeps_name {A} (m : M Record_ A) : Prop :=
  ∀ r, name (m r).2 = name r.

Definition names_kept (st st' : State) : Prop :=
  ∀ l r, heap st !! l = Some r →
         ∃ r', heap st' !! l = Some r' ∧ name r' = name r.

(** *** The check of [_ord2md] on one day of the year *)

Definition md_ok (leap : bool) (r : Z) : bool :=
  (let '(m, d) := _ord2md r leap in
   (1 <=? m) && (m <=? 12) && (1 <=? d)
   && (d <=? (if (m =? 2) && leap then 29 else table _DAYS_IN_MONTH m))
   && (table _DAYS_BEFORE_MONTH m + (if (2 <? m) && leap then 1 else 0) + d
       =? r + 1))%Z.

(** *** Platforms and example books *)

Definition glibc : Platform := {| zero_pads_year := false |}.
Definition padding_libc : Platform := {| zero_pads_year := true |}.

(** The state after a session of commands. *)
Definition session (cmds : list (State → string * State)) : State :=
  foldl (λ st cmd, (cmd st).2) empty_state cmds.

(** A book with a contact born on a 29th of February and another one. *)
Definition leap_book : State :=
  session [input_error add_contact ["Leap"; "0501234567"];
           input_error add_birthday ["Leap"; "29.02.2000"];
           input_error add_contact ["Ann"; "0671234567"];
           input_error add_birthday ["Ann"; "12.06.1990"]].

(** The book of the scenario of the specification. *)
Definition june_book : State :=
  session [input_error add_contact ["Ann"; "0501234567"];
           input_error add_birthday ["Ann"; "12.06.1990"];
           input_error add_contact ["Bob"; "0671234567"];
           input_error add_birthday ["Bob"; "15.06.1985"];
           input_error add_contact ["Cid"; "0931234567"];
           input_error add_birthday ["Cid"; "20.06.1970"]].

(** *** The alternatives of a group, with the rest of the match as a
    continuation *)

Definition try_alts {R} (K : string → string → option R) (alts : list alt)
  (s : string) : option R :=
  first_some (λ a, match match_alt a s with
                   | Some (m, s1) => K m s1
                   | None => None
                   end) alts.

(** *** The contacts the query is to report *)

Definition in_windowb (b today : date) : bool :=
  ((0 <=? days_between (next_occurrence b today) today)
   && (days_between (next_occurrence b today) today <=? 7))%Z.

(** The record has a birthday whose next occurrence is in the window. *)
Definition due (today : date) (r : Record_) : bool :=
  match birthday r with
  | Some b => in_windowb (birthday_value b) today
  | None => false
  end.

(** The records of the book, in the order of the dictionary. *)
Definition records_of (st : State) : list Record_ :=
  omap (λ l, heap st !! l) (dict_values (data st)).

(** A birthday that exists in every year. *)
Definition every_year (d : date) : Prop :=
  date_ok d ∧ ¬ (month d = 2 ∧ day d = 29)%Z.

(** *** Errors of [remove_phone] *)

(** The error raised when no phone equals [phone_str]. *)
Definition not_found_phone (phone_str : string) (self : Record_) : exn :=
  Exn ValueError ("Phone '" +:+ phone_str +:+ "' not found for contact '"
                  +:+ name_value (name self) +:+ "'.").

(** *** Computations on the state *)

(** The state after a list of operations. *)
Definition steps (ops : list op) (st : State) : State :=
  foldl (λ s o, exec o s) st ops.

(** Whatever it returns or raises, the computation changes the state as a
    list of operations does. *)
Definition by_ops {A} (m : M State A) : Prop :=
  ∀ st, ∃ ops, (m st).2 = steps ops st.

(** The computation leaves the state as it is. *)
Definition read_only {A} (m : M State A) : Prop :=
  ∀ st, (m st).2 = st.

(** *** Lines of input *)

(** The line is an exit command. *)
Definition exits (user_input : string) : bool :=
  is_exit (parse_input user_input).1.

(** The line consists of whitespace only. *)
Definition blank (s : string) : Prop :=
  ∀ c, In c (chars s) → is_space c = true.

(** A word: not empty and without whitespace. *)
Definition word (s : string) : Prop := s ≠ "" ∧ no_space s.

(** *** Listings *)

(** The line of [all] for a record. *)
Definition contact_line (r : Record_) : string :=
  name_value (name r) +:+ ": phones: " +:+ phones_str (phones r).

(** The phones of the contact [nm]; none when the book has no such
    contact. *)
Definition phones_of (st : State) (nm : string) : list Phone :=
  match dict_get nm (data st) with
  | Some l => match heap st !! l with Some r => phones r | None => [] end
  | None => []
  end.

(** * Proofs *)

(** ** Text *)

Lemma app_cons c s t : String c s +:+ t = String c (s +:+ t).
Proof. reflexivity. Qed.

Lemma app_empty_l t : "" +:+ t = t.
Proof. reflexivity. Qed.

Lemma app_empty_r s : s +:+ "" = s.
Proof. induction s as [|c s IH]; [done|]. by rewrite app_cons, IH. Qed.

Lemma app_assoc_s s1 s2 s3 : (s1 +:+ s2) +:+ s3 = s1 +:+ s2 +:+ s3.
Proof. induction s1 as [|c s1 IH]; [done|]. by rewrite !app_cons, IH. Qed.

Lemma chars_app s1 s2 : chars (s1 +:+ s2) = (chars s1 ++ chars s2)%list.
Proof.
  unfold chars. induction s1 as [|c s1 IH]; [done|].
  rewrite app_cons. simpl. by rewrite IH.
Qed.

Lemma decimal_is_digit c : (48 <= code c <= 57)%N → is_digit c = true.
Proof.
  intros [Hlo Hhi]. unfold is_digit.
  apply N.leb_le in Hlo, Hhi. by rewrite Hlo, Hhi.
Qed.

Lemma all_digits_decimal s : decimal_digits s → all_digits s = true.
Proof.
  unfold decimal_digits, chars. induction s as [|c s IH]; [done|]. simpl.
  intros Hall. rewrite decimal_is_digit by (apply Hall; auto).
  apply IH. intros c' Hin. apply Hall. auto.
Qed.

Lemma ten_digitsb_spec s : ten_digitsb s = true ↔ ten_digits s.
Proof.
  unfold ten_digitsb, ten_digits, decimal_digits.
  rewrite andb_true_iff, Nat.eqb_eq, forallb_forall.
  split; intros [Hlen Hall]; (split; [done|]); intros c Hin;
    specialize (Hall c Hin); revert Hall;
    rewrite andb_true_iff, !N.leb_le; done.
Qed.

Lemma digit_not_space c : (48 <= code c <= 57)%N → is_space c = false.
Proof.
  intros Hc. unfold is_space.
  rewrite !orb_false_iff, !andb_false_iff, !N.leb_gt, !N.eqb_neq. lia.
Qed.

Lemma no_space_cons c s : no_space (String c s) ↔ is_space c = false ∧ no_space s.
Proof.
  unfold no_space, chars. simpl. split.
  - intros Hall. split; [apply Hall; auto | intros c' Hin; apply Hall; auto].
  - intros [Hc Hs] c' [<- | Hin]; auto.
Qed.

Lemma lstrip_no_space s : no_space s → lstrip s = s.
Proof. destruct s as [|c s]; [done|]. rewrite no_space_cons. simpl. by intros [-> _]. Qed.

Lemma rstrip_no_space s : no_space s → rstrip s = s.
Proof.
  induction s as [|c s IH]; [done|]. rewrite no_space_cons. intros [Hc Hs].
  simpl. rewrite (IH Hs), Hc. by destruct s.
Qed.

Lemma strip_no_space s : no_space s → strip s = s.
Proof. intros Hs. unfold strip. by rewrite (lstrip_no_space s Hs), rstrip_no_space. Qed.

Lemma decimal_digits_no_space s : decimal_digits s → no_space s.
Proof. intros Hs c Hin. by apply digit_not_space, Hs. Qed.

(** ** Phone *)


Lemma Phone_init_cases text :
  Phone_init text =
    if isdigit (strip text) && (String.length (strip text) =? 10)%nat
    then ok (mkPhone (strip text))
    else err ValueError "Phone must contain exactly 10 digits.".
Proof.
  unfold Phone_init.
  by destruct (isdigit (strip text)), (String.length (strip text) =? 10)%nat.
Qed.

Lemma ten_digits_isdigit s :
  ten_digits s → isdigit s && (String.length s =? 10)%nat = true.
Proof.
  intros [Hlen Hall]. rewrite Hlen. destruct s as [|c s]; [done|].
  unfold isdigit. by rewrite (all_digits_decimal _ Hall).
Qed.

Lemma Phone_init_valid text :
  ten_digits (strip text) → Phone_init text = ok (mkPhone (strip text)).
Proof. intros Hten. rewrite Phone_init_cases. by rewrite (ten_digits_isdigit _ Hten). Qed.

(** Whatever [Phone] rejects, it rejects with the same [ValueError]. *)
Lemma Phone_init_err text e :
  Phone_init text = inl e →
  e = Exn ValueError "Phone must contain exactly 10 digits.".
Proof.
  rewrite Phone_init_cases.
  destruct (isdigit (strip text) && (String.length (strip text) =? 10)%nat);
    [done | by intros [= <-]].
Qed.

Lemma Phone_init_ok text p :
  Phone_init text = ok p → p = mkPhone (strip text).
Proof.
  rewrite Phone_init_cases.
  destruct (isdigit (strip text) && (String.length (strip text) =? 10)%nat);
    [by intros [= <-] | done].
Qed.

(** C4 fails on the code.  [Phone] tests the trimmed text with
    [str.isdigit], which also holds of the superscript digits: ten
    superscript twos are not ten decimal digits, yet [Phone] accepts them
    and holds them as a phone number, and [add] stores a contact with that
    number. *)
Theorem Phone_init_superscript_digits :
  ¬ ten_digits (strip superscript_twos)
  ∧ Phone_init superscript_twos = ok (mkPhone superscript_twos)
  ∧ input_error add_contact ["Bob"; superscript_twos] empty_state
    = ("Contact 'Bob' with phone '" +:+ superscript_twos +:+ "' added.",
       mkState [mkRecord (mkName "Bob") [mkPhone superscript_twos] None]
               [("Bob", 0)]).
Proof.
  split; [|split; reflexivity].
  intros Hten. apply ten_digitsb_spec in Hten. discriminate.
Qed.

(** ** The state monad *)

Lemma bind_ok {S A B} (m : M S A) (k : A → M S B) s a s' :
  m s = (inr a, s') → bind m k s = k a s'.
Proof. unfold bind. by intros ->. Qed.

Lemma bind_err {S A B} (m : M S A) (k : A → M S B) s e s' :
  m s = (inl e, s') → bind m k s = (inl e, s').
Proof. unfold bind. by intros ->. Qed.

(** ** Record: [edit_phone] *)

Lemma edit_phone_loop_absent old_phone new_phone rest i self :
  Forall (λ q, phone_value q ≠ old_phone) rest →
  edit_phone_loop old_phone new_phone i rest self
  = (inl (not_found_old old_phone self), self).
Proof.
  intros Hall. revert i. induction Hall as [|q rest Hq _ IH]; intros i; simpl.
  - reflexivity.
  - destruct (decide (phone_value q = old_phone)); [done | apply IH].
Qed.

Lemma edit_phone_loop_present old_phone new_phone pre ph post seen self :
  phones self = (seen ++ pre ++ ph :: post)%list →
  Forall (λ q, phone_value q ≠ old_phone) pre →
  phone_value ph = old_phone →
  edit_phone_loop old_phone new_phone (length seen) (pre ++ ph :: post)%list self
  = match Phone_init new_phone with
    | inr p => (ok tt, mkRecord (name self) (seen ++ pre ++ p :: post)%list (birthday self))
    | inl e => (inl e, self)
    end.
Proof.
  intros Hself Hpre Hph. revert seen Hself.
  induction Hpre as [|q pre Hq _ IH]; intros seen Hself; simpl.
  - rewrite decide_True by done. unfold bind, lift, modify, set_phones.
    destruct (Phone_init new_phone) as [e | p]; [done|].
    rewrite Hself. replace (length seen) with (length seen + 0) by lia.
    by rewrite insert_app_r.
  - rewrite decide_False by done.
    replace (S (length seen)) with (length (seen ++ [q])%list)
      by (rewrite length_app; simpl; lia).
    rewrite (IH (seen ++ [q])%list).
    + destruct (Phone_init new_phone); [done|]. by rewrite <- app_assoc.
    + by rewrite <- app_assoc.
Qed.

(** C5. [edit_phone] replaces the first phone equal to [old_text] by
    [Phone(new_text)], in place; when no phone equals [old_text] it raises
    the not-found error and the record is unchanged; when [old_text] is
    present and [Phone(new_text)] raises, it raises that error, a
    [ValueError], and the record is unchanged. *)
Theorem edit_phone_spec (self : Record_) (old_text new_text : string) :
  (Forall (λ q, phone_value q ≠ old_text) (phones self) →
     edit_phone old_text new_text self = (inl (not_found_old old_text self), self))
  ∧ (∀ pre ph post,
       phones self = (pre ++ ph :: post)%list →
       Forall (λ q, phone_value q ≠ old_text) pre →
       phone_value ph = old_text →
       (∀ p, Phone_init new_text = ok p →
             edit_phone old_text new_text self
             = (ok tt, mkRecord (name self) (pre ++ p :: post)%list (birthday self)))
       ∧ (∀ e, Phone_init new_text = inl e →
               exn_cls e = ValueError
               ∧ edit_phone old_text new_text self = (inl e, self))).
Proof.
  split.
  - intros Habsent. unfold edit_phone. erewrite bind_ok by reflexivity.
    by apply edit_phone_loop_absent.
  - intros pre ph post Hself Hpre Hph.
    assert (edit_phone old_text new_text self
            = match Phone_init new_text with
              | inr p => (ok tt, mkRecord (name self) (pre ++ p :: post)%list (birthday self))
              | inl e => (inl e, self)
              end) as ->.
    { unfold edit_phone. erewrite bind_ok by reflexivity. rewrite Hself.
      by apply (edit_phone_loop_present _ _ pre ph post []). }
    split.
    + by intros p ->.
    + intros e He. rewrite He. split; [|done].
      by rewrite (Phone_init_err _ _ He).
Qed.

Lemma edit_phone_spec_witness :
  let john := mkRecord (mkName "John") [mkPhone "1234567890"; mkPhone "5555555555"] None in
  edit_phone "5555555555" "1112223333" john
  = (ok tt, mkRecord (mkName "John")
                     [mkPhone "1234567890"; mkPhone "1112223333"] None)
  ∧ edit_phone "0000000000" "1112223333" john
    = (inl (not_found_old "0000000000" john), john).
Proof.
  intros john. split.
  - refine (proj1 (proj2 (edit_phone_spec john "5555555555" "1112223333")
                     [mkPhone "1234567890"] (mkPhone "5555555555") []
                     eq_refl _ eq_refl) (mkPhone "1112223333") eq_refl).
    repeat constructor. simpl. discriminate.
  - apply (proj1 (edit_phone_spec john "0000000000" "1112223333")).
    repeat constructor; simpl; discriminate.
Defined.

(** ** The dictionary *)

Section DictFacts.
Context {V : Type}.
Implicit Types (d : list (string * V)) (k : string).

Lemma dict_del_cons k k' v d :
  dict_del k ((k', v) :: d)
  = if decide (k' = k) then dict_del k d else (k', v) :: dict_del k d.
Proof.
  unfold dict_del. rewrite filter_cons. simpl.
  destruct (decide (k' = k)), (decide (k' ≠ k)); done.
Qed.

Lemma dict_get_del k d : dict_get k (dict_del k d) = None.
Proof.
  induction d as [|[k' v] d IH]; [done|]. rewrite dict_del_cons.
  destruct (decide (k' = k)) as [|Hne]; [done|]. simpl. by rewrite decide_False.
Qed.

Lemma dict_del_absent k d : dict_get k d = None → dict_del k d = d.
Proof.
  induction d as [|[k' v] d IH]; [done|]. rewrite dict_del_cons. simpl.
  destruct (decide (k' = k)); [done|]. intros Hd. by rewrite IH.
Qed.

Lemma dict_del_In k k0 v d : In (k0, v) (dict_del k d) → In (k0, v) d.
Proof.
  induction d as [|[k' v'] d IH]; [done|]. rewrite dict_del_cons.
  destruct (decide (k' = k)); simpl; intuition.
Qed.

Lemma dict_set_In k v k0 v0 d :
  In (k0, v0) (dict_set k v d) → (k0, v0) = (k, v) ∨ In (k0, v0) d.
Proof.
  induction d as [|[k' v'] d IH]; simpl.
  - intros [<- | []]. by left.
  - destruct (decide (k' = k)); simpl; intros [<- | Hin]; auto.
    destruct (IH Hin); auto.
Qed.

Lemma dict_get_In k v d : dict_get k d = Some v → In (k, v) d.
Proof.
  induction d as [|[k' v'] d IH]; [done|]. simpl.
  destruct (decide (k' = k)) as [-> |]; [intros [= ->]; by left | auto].
Qed.
End DictFacts.

(** ** AddressBook: [delete] *)

(** C7. [delete(name)] never raises; on an absent name it returns [False]
    and leaves the state unchanged; on a present name it returns [True] and
    a subsequent [find(name)] returns [None]. *)
Theorem delete_spec (st : State) (nm : string) :
  ∃ removed st',
    AddressBook.delete nm st = (ok removed, st')
    ∧ ((AddressBook.find nm st).1 = ok None → removed = false ∧ st' = st)
    ∧ ((∃ l, (AddressBook.find nm st).1 = ok (Some l)) →
         removed = true ∧ AddressBook.find nm st' = (ok None, st')).
Proof.
  unfold AddressBook.delete, AddressBook.find, bind, get, ret, modify, set_data.
  simpl. destruct (dict_get nm (data st)) as [l|] eqn:Hget; simpl.
  - exists true, (mkState (heap st) (dict_del nm (data st))).
    split; [reflexivity|]. split; [discriminate|].
    intros _. split; [done|]. simpl. by rewrite dict_get_del.
  - eexists false, st. split; [reflexivity|]. split; [done|].
    intros [l [=]].
Qed.

Lemma delete_spec_witness :
  let st := mkState [mkRecord (mkName "Jane") [] None] [("Jane", 0)] in
  ∃ removed st',
    AddressBook.delete "Jane" st = (ok removed, st')
    ∧ removed = true ∧ AddressBook.find "Jane" st' = (ok None, st').
Proof.
  intros st. destruct (delete_spec st "Jane") as (removed & st' & Hrun & _ & Hpresent).
  exists removed, st'. split; [exact Hrun|]. apply Hpresent.
  exists 0. reflexivity.
Defined.

(** ** The [add] command with one argument *)

(** C8. Called with a single argument, the [add] handler returns the
    message of [input_error] for a [ValueError] and leaves the state, book
    and records, unchanged. *)
Theorem add_contact_one_argument (st : State) (a : string) :
  input_error add_contact [a] st = ("Give me name and phone please.", st).
Proof. reflexivity. Qed.

(** ** The upcoming-birthdays query reads only *)

Section ReadOnly.
Context `{Platform}.

Lemma upcoming_loop_cons today l rest upcoming st :
  AddressBook.upcoming_loop today (l :: rest) upcoming st
  = match heap st !! l with
    | None => (dangling, st)
    | Some r =>
        match birthday r with
        | None => AddressBook.upcoming_loop today rest upcoming st
        | Some b =>
            match AddressBook.upcoming_step today r b with
            | inl e => (inl e, st)
            | inr (Some entry) =>
                AddressBook.upcoming_loop today rest (upcoming ++ [entry])%list st
            | inr None => AddressBook.upcoming_loop today rest upcoming st
            end
        end
    end.
Proof.
  simpl. unfold bind, deref. destruct (heap st !! l) as [r|]; [|done].
  unfold ok. destruct (birthday r) as [b|]; [|done]. unfold lift.
  by destruct (AddressBook.upcoming_step today r b) as [e | [entry|]].
Qed.

Lemma upcoming_loop_state today records upcoming st :
  (AddressBook.upcoming_loop today records upcoming st).2 = st.
Proof.
  revert upcoming. induction records as [|l rest IH]; intros upcoming; [done|].
  rewrite upcoming_loop_cons. destruct (heap st !! l) as [r|]; [|done].
  destruct (birthday r) as [b|]; [|apply IH].
  destruct (AddressBook.upcoming_step today r b) as [e | [entry|]];
    [done | apply IH | apply IH].
Qed.

(** C9. Running the query leaves the state as it was: the keys of the book
    and every record, with its name, phones and birthday. *)
Theorem get_upcoming_birthdays_read_only (today : date) (st : State) :
  let st' := (AddressBook.get_upcoming_birthdays today st).2 in
  st' = st
  ∧ dict_keys (data st') = dict_keys (data st)
  ∧ ∀ l, heap st' !! l = heap st !! l.
Proof.
  assert ((AddressBook.get_upcoming_birthdays today st).2 = st) as ->; [|done].
  unfold AddressBook.get_upcoming_birthdays, bind, get.
  apply upcoming_loop_state.
Qed.

(** C10. For a contact of the book without a birthday, [show-birthday]
    returns the line "<name>: None." and not an error message. *)
Theorem show_birthday_unset (st : State) (nm : string) (rest : list string)
        (r : Record_) :
  contact st nm r → birthday r = None →
  input_error show_birthday (nm :: rest) st = (nm +:+ ": None.", st).
Proof.
  intros (l & Hget & Hl) Hb.
  cbv [input_error show_birthday bind lift index0 AddressBook.find
       get ret deref ok]. rewrite Hget, Hl, Hb. reflexivity.
Qed.
End ReadOnly.

Lemma show_birthday_unset_witness :
  let st := mkState [mkRecord (mkName "Bob") [mkPhone "2223334444"] None]
                    [("Bob", 0)] in
  @input_error (@show_birthday {| zero_pads_year := false |}) ["Bob"] st
  = ("Bob: None.", st).
Proof.
  intros st.
  apply (@show_birthday_unset {| zero_pads_year := false |} st "Bob" []
           (mkRecord (mkName "Bob") [mkPhone "2223334444"] None)).
  - exists 0. split; reflexivity.
  - reflexivity.
Defined.

(** ** The invariant of the book *)

Lemma keeps_bind {A B} (m : M Record_ A) (k : A → M Record_ B) :
  keeps_name m → (∀ a, keeps_name (k a)) → keeps_name (bind m k).
Proof.
  intros Hm Hk r. unfold bind. specialize (Hm r).
  destruct (m r) as [[e | a] r']; simpl in *; [done|]. by rewrite Hk.
Qed.

Lemma keeps_lift {A} (x : result A) : keeps_name (lift x).
Proof. done. Qed.

Lemma keeps_get : keeps_name get.
Proof. done. Qed.

Lemma keeps_raise {A} c msg : keeps_name (@raise Record_ A c msg).
Proof. done. Qed.

Lemma keeps_set_phones f : keeps_name (modify (set_phones f)).
Proof. done. Qed.

Lemma keeps_set_birthday b : keeps_name (modify (set_birthday b)).
Proof. done. Qed.

Create HintDb keeps.
#[local] Hint Resolve keeps_lift keeps_get keeps_raise keeps_set_phones
  keeps_set_birthday : keeps.

Lemma keeps_remove_phone_loop p i rest : keeps_name (remove_phone_loop p i rest).
Proof.
  revert i. induction rest as [|ph rest IH]; intros i; simpl.
  - apply keeps_bind; auto with keeps.
  - destruct (decide (phone_value ph = p)); auto with keeps.
Qed.

Lemma keeps_edit_phone_loop o n i rest : keeps_name (edit_phone_loop o n i rest).
Proof.
  revert i. induction rest as [|ph rest IH]; intros i; simpl.
  - apply keeps_bind; auto with keeps.
  - destruct (decide (phone_value ph = o)); [|done].
    apply keeps_bind; auto with keeps.
Qed.

Lemma keeps_add_phone p : keeps_name (add_phone p).
Proof. apply keeps_bind; auto with keeps. Qed.

Lemma keeps_remove_phone p : keeps_name (remove_phone p).
Proof. apply keeps_bind; auto using keeps_remove_phone_loop with keeps. Qed.

Lemma keeps_edit_phone o n : keeps_name (edit_phone o n).
Proof. apply keeps_bind; auto using keeps_edit_phone_loop with keeps. Qed.

Lemma keeps_edit_birthday b : keeps_name (edit_birthday b).
Proof. apply keeps_bind; auto with keeps. Qed.

Lemma keeps_remove_birthday : keeps_name remove_birthday.
Proof. apply keeps_set_birthday. Qed.

Lemma names_kept_refl st : names_kept st st.
Proof. intros l r Hl. eauto. Qed.

Lemma at_names_kept {A} l (m : M Record_ A) st :
  keeps_name m →
  names_kept st (at_ l m st).2 ∧ data (at_ l m st).2 = data st.
Proof.
  intros Hm. unfold at_. destruct (heap st !! l) as [r|] eqn:Hl;
    [|split; [apply names_kept_refl | done]].
  specialize (Hm r). destruct (m r) as [res r']; simpl in *. split; [|done].
  intros l0 r0 Hl0. destruct (decide (l0 = l)) as [-> | Hne].
  - exists r'. simpl. rewrite list_lookup_insert_eq by (by eapply lookup_lt_Some).
    split; [done|]. congruence.
  - exists r0. simpl. by rewrite list_lookup_insert_ne.
Qed.

Lemma key_is_name_step st st' :
  key_is_name st → names_kept st st' →
  (∀ k l, In (k, l) (data st') → In (k, l) (data st)) →
  key_is_name st'.
Proof.
  intros Hinv Hkept Hsub k l Hin.
  destruct (Hinv k l (Hsub k l Hin)) as (r & Hl & Hk).
  destruct (Hkept l r Hl) as (r' & Hl' & Hn). exists r'. split; [done|].
  by rewrite Hn.
Qed.

Lemma key_is_name_at {A} l (m : M Record_ A) st :
  keeps_name m → key_is_name st → key_is_name (at_ l m st).2.
Proof.
  intros Hm Hinv. destruct (at_names_kept l m st Hm) as [Hkept Hdata].
  apply (key_is_name_step st); [done | done |]. by rewrite Hdata.
Qed.

Lemma key_is_name_exec o st : key_is_name st → key_is_name (exec o st).
Proof.
  intros Hinv. destruct o; simpl;
    try (apply key_is_name_at;
         auto using keeps_add_phone, keeps_remove_phone, keeps_edit_phone,
           keeps_edit_birthday, keeps_remove_birthday; fail).
  - (* Record(nm) *)
    unfold new_Record. destruct (Record_init nm) as [e | r]; [done|]. simpl.
    apply (key_is_name_step st); [done | | done].
    intros l r0 Hl. exists r0. split; [|done]. by apply lookup_app_l_Some.
  - (* add_record *)
    cbv [AddressBook.add_record bind deref modify set_data ok].
    destruct (heap st !! l) as [r|] eqn:Hl; [|done]. simpl.
    intros k l0 Hin. simpl in Hin. apply dict_set_In in Hin as [[= -> ->] | Hin].
    + by exists r.
    + by apply Hinv.
  - (* delete *)
    cbv [AddressBook.delete bind get modify set_data ret].
    destruct (dict_get nm (data st)); [|done]. simpl.
    apply (key_is_name_step st); [done | by intros l r Hl; exists r |].
    intros k l. apply dict_del_In.
Qed.

(** C6. In every state reached from the empty book by record creations,
    [add_record], [delete] and the record mutations (phone add, edit and
    remove, birthday set and clear), every key of the book is the name of
    the record stored under it. *)
Theorem reachable_key_is_name (st : State) :
  reachable st → key_is_name st.
Proof.
  induction 1 as [|o st _ IH].
  - intros k l [].
  - by apply key_is_name_exec.
Qed.

Lemma reachable_key_is_name_witness :
  let st := foldl (λ s o, exec o s) empty_state
              [NewRecord " John "; AddPhone 0 "1234567890"; AddRecord 0;
               NewRecord "Jane"; AddRecord 1; EditBirthday 0 "17.03.1990";
               EditPhone 0 "1234567890" "1112223333"; Delete "Jane"] in
  data st = [("John", 0)] ∧ key_is_name st.
Proof.
  intros st. split; [reflexivity|].
  apply reachable_key_is_name.
  repeat apply reachable_step. apply reachable_empty.
Defined.

(** ** The calendar *)

Section Calendar.
Local Open Scope Z_scope.

Lemma is_leap_decomp a b c d :
  0 <= b <= 3 → 0 <= c <= 24 → 0 <= d <= 3 →
  _is_leap (400 * a + 100 * b + 4 * c + d + 1)
  = (d =? 3) && (negb (c =? 24) || (b =? 3)).
Proof.
  intros Hb Hc Hd. unfold _is_leap.
  repeat match goal with
         | |- context [Z.eqb ?x ?y] => destruct (Z.eqb_spec x y)
         end;
    simpl; try reflexivity; exfalso; Z.div_mod_to_equations; lia.
Qed.

Lemma days_before_year_decomp a b c d :
  0 <= b <= 3 → 0 <= c <= 24 → 0 <= d <= 3 →
  _days_before_year (400 * a + 100 * b + 4 * c + d + 1)
  = 146097 * a + 36524 * b + 1461 * c + 365 * d.
Proof.
  intros Hb Hc Hd. unfold _days_before_year. cbv zeta.
  Z.div_mod_to_equations. lia.
Qed.

Lemma md_ok_all (leap : bool) r :
  0 <= r < (if leap then 366 else 365) → md_ok leap r = true.
Proof.
  intros Hr.
  assert (forallb (λ k, md_ok true (Z.of_nat k)) (seq 0 366) = true) as Ht
    by (vm_compute; reflexivity).
  assert (forallb (λ k, md_ok false (Z.of_nat k)) (seq 0 365) = true) as Hf
    by (vm_compute; reflexivity).
  rewrite forallb_forall in Ht, Hf.
  rewrite <- (Z2Nat.id r) by lia.
  destruct leap; [apply (Ht (Z.to_nat r)) | apply (Hf (Z.to_nat r))];
    apply in_seq; lia.
Qed.

Lemma dec31_leap y :
  _is_leap y = true →
  _ymd2ord y 12 31 = _days_before_year y + 366 ∧ _days_in_month y 12 = 31.
Proof.
  intros Hy. unfold _ymd2ord, _days_before_month, _days_in_month. rewrite Hy.
  change (table _DAYS_BEFORE_MONTH 12 + (if (2 <? 12) && true then 1 else 0))
    with 335.
  change (if (12 =? 2) && true then 29 else table _DAYS_IN_MONTH 12) with 31.
  lia.
Qed.

(** [_ord2ymd] inverts [_ymd2ord] and yields a date of the calendar. *)
Lemma ord2ymd_spec n :
  1 <= n <= _MAXORDINAL →
  let '(y, m, d) := _ord2ymd n in
  _ymd2ord y m d = n ∧ calendar_date y m d.
Proof.
  intros Hn. unfold _MAXORDINAL in Hn.
  unfold calendar_date, _ord2ymd, _DI400Y, _DI100Y, _DI4Y. cbv zeta.
  pose proof (Z.div_mod (n - 1) 146097 ltac:(lia)) as E1.
  pose proof (Z.mod_pos_bound (n - 1) 146097 ltac:(lia)) as B1.
  set (a := (n - 1) / 146097) in *. set (r1 := (n - 1) mod 146097) in *.
  pose proof (Z.div_mod r1 36524 ltac:(lia)) as E2.
  pose proof (Z.mod_pos_bound r1 36524 ltac:(lia)) as B2.
  set (b := r1 / 36524) in *. set (r2 := r1 mod 36524) in *.
  pose proof (Z.div_mod r2 1461 ltac:(lia)) as E3.
  pose proof (Z.mod_pos_bound r2 1461 ltac:(lia)) as B3.
  set (c := r2 / 1461) in *. set (r3 := r2 mod 1461) in *.
  pose proof (Z.div_mod r3 365 ltac:(lia)) as E4.
  pose proof (Z.mod_pos_bound r3 365 ltac:(lia)) as B4.
  set (d := r3 / 365) in *. set (r4 := r3 mod 365) in *.
  clearbody a r1 b r2 c r3 d r4.
  assert (0 <= a <= 24 ∧ 0 <= b <= 4 ∧ 0 <= c <= 24 ∧ 0 <= d <= 4)
    as (Ha & Hb & Hc & Hd) by lia.
  destruct (Z.eqb_spec d 4) as [Hd4 | Hd4]; cbn [orb].
  - (* the last day of a leap year *)
    replace (a * 400 + 1 + b * 100 + c * 4 + d - 1)
      with (400 * a + 100 * b + 4 * c + 3 + 1) by lia.
    assert (b <= 3 ∧ c <= 23) as [Hb3 Hc23] by lia.
    destruct (dec31_leap (400 * a + 100 * b + 4 * c + 3 + 1)) as [-> ->].
    { rewrite is_leap_decomp by lia.
      replace (c =? 24) with false by (symmetry; apply Z.eqb_neq; lia).
      reflexivity. }
    rewrite days_before_year_decomp by lia. lia.
  - destruct (Z.eqb_spec b 4) as [Hb4 | Hb4]; cbn [orb].
    + (* the last day of a 400-year cycle *)
      replace (a * 400 + 1 + b * 100 + c * 4 + d - 1)
        with (400 * a + 100 * 3 + 4 * 24 + 3 + 1) by lia.
      destruct (dec31_leap (400 * a + 100 * 3 + 4 * 24 + 3 + 1)) as [-> ->].
      { rewrite is_leap_decomp by lia. reflexivity. }
      rewrite days_before_year_decomp by lia. lia.
    + replace (a * 400 + 1 + b * 100 + c * 4 + d)
        with (400 * a + 100 * b + 4 * c + d + 1) by lia.
      set (leap := (d =? 3) && (negb (c =? 24) || (b =? 3))).
      assert (0 <= r4 < (if leap then 366 else 365)) as Hr4
        by (destruct leap; lia).
      pose proof (md_ok_all leap r4 Hr4) as Hmd. unfold md_ok in Hmd.
      destruct (_ord2md r4 leap) as [m dd].
      unfold _ymd2ord, _days_in_month, _days_before_month.
      rewrite days_before_year_decomp, is_leap_decomp by lia. fold leap.
      rewrite !andb_true_iff, !Z.leb_le, Z.eqb_eq in Hmd. lia.
Qed.

Lemma date_init_calendar y m d :
  calendar_date y m d → date_init y m d = ok (mkdate y m d).
Proof.
  intros (Hy & Hm & Hd). unfold date_init, MINYEAR, MAXYEAR.
  rewrite !(proj2 (Z.leb_le _ _)) by lia. reflexivity.
Qed.

Lemma date_init_ok y m d x :
  date_init y m d = ok x → x = mkdate y m d ∧ calendar_date y m d.
Proof.
  unfold date_init, calendar_date, MINYEAR, MAXYEAR.
  repeat match goal with
         | |- context [Z.leb ?a ?b] => destruct (Z.leb_spec a b)
         end; simpl; try discriminate.
  intros [= <-]. split; [done | lia].
Qed.

Lemma date_init_err y m d e : date_init y m d = inl e → exn_cls e = ValueError.
Proof.
  unfold date_init, err.
  repeat match goal with
         | |- context [if ?b then _ else _] => destruct b
         end; intros [= <-]; reflexivity.
Qed.

Lemma add_days_ok d n d' :
  add_days d n = ok d' →
  toordinal d' = toordinal d + n ∧ date_ok d'.
Proof.
  unfold add_days.
  destruct (Z.ltb_spec 0 (toordinal d + n)); [|discriminate].
  destruct (Z.leb_spec (toordinal d + n) _MAXORDINAL); [|discriminate].
  simpl. intros [= <-]. unfold fromordinal.
  pose proof (ord2ymd_spec (toordinal d + n) ltac:(lia)) as Hspec.
  destruct (_ord2ymd (toordinal d + n)) as [[y m] dd].
  destruct Hspec as [Hord Hcal]. split; [exact Hord | exact Hcal].
Qed.

Lemma weekday_add d d' n :
  toordinal d' = toordinal d + n → weekday d' = (weekday d + n) mod 7.
Proof.
  intros Hd. unfold weekday. rewrite Hd.
  rewrite Zplus_mod_idemp_l. f_equal. lia.
Qed.

Lemma weekday_range d : 0 <= weekday d < 7.
Proof. unfold weekday. apply Z.mod_pos_bound. lia. Qed.
End Calendar.

Ltac eval_closed :=
  repeat match goal with
         | |- context [table ?t ?k] =>
             let v := eval vm_compute in (table t k) in
             progress change (table t k) with v
         | |- context [if ?b then _ else _] =>
             let v := eval vm_compute in b in
             match v with
             | true => change b with true
             | false => change b with false
             end; cbv iota
         end.

Section CalendarOrder.
Local Open Scope Z_scope.

Lemma days_before_year_succ y :
  _days_before_year (y + 1)
  = _days_before_year y + (if _is_leap y then 366 else 365).
Proof.
  unfold _days_before_year, _is_leap. cbv zeta.
  repeat match goal with
         | |- context [Z.eqb ?x ?y] => destruct (Z.eqb_spec x y)
         end;
    simpl; Z.div_mod_to_equations; lia.
Qed.

Lemma days_before_year_mono a b :
  a <= b → _days_before_year a <= _days_before_year b.
Proof.
  intros Hab. unfold _days_before_year. cbv zeta.
  Z.div_mod_to_equations. lia.
Qed.

Lemma day_of_year_range y m d :
  1 <= m <= 12 → 1 <= d <= _days_in_month y m →
  1 <= _days_before_month y m + d <= (if _is_leap y then 366 else 365).
Proof.
  intros Hm. unfold _days_in_month, _days_before_month.
  assert (m = 1 ∨ m = 2 ∨ m = 3 ∨ m = 4 ∨ m = 5 ∨ m = 6 ∨ m = 7 ∨ m = 8
          ∨ m = 9 ∨ m = 10 ∨ m = 11 ∨ m = 12) as Hcases by lia.
  destruct (_is_leap y);
    repeat (destruct Hcases as [-> | Hcases]); try subst m;
    eval_closed; lia.
Qed.

Lemma year_le_of_ordinal a b :
  date_ok a → date_ok b → toordinal a <= toordinal b → year a <= year b.
Proof.
  intros (_ & Hma & Hda) (_ & Hmb & Hdb) Hord.
  destruct (Z.le_gt_cases (year a) (year b)) as [|Hlt]; [done|]. exfalso.
  pose proof (day_of_year_range _ _ _ Hma Hda) as Ha.
  pose proof (day_of_year_range _ _ _ Hmb Hdb) as Hb.
  pose proof (days_before_year_succ (year b)) as Hsucc.
  pose proof (days_before_year_mono (year b + 1) (year a) ltac:(lia)) as Hmono.
  unfold toordinal, _ymd2ord in Hord. lia.
Qed.
End CalendarOrder.

(** ** Rendering dates *)

Section Rendering.
Context `{Platform}.
Local Open Scope Z_scope.

Lemma decimal_four y : 1000 <= y <= 9999 → decimal y = pad4 y.
Proof.
  intros Hy. unfold decimal. cbn [decimal_acc].
  rewrite (proj2 (Z.ltb_ge y 10)) by lia.
  rewrite (proj2 (Z.ltb_ge (y / 10) 10)) by (Z.div_mod_to_equations; lia).
  rewrite (proj2 (Z.ltb_ge (y / 10 / 10) 10)) by (Z.div_mod_to_equations; lia).
  rewrite (proj2 (Z.ltb_lt (y / 10 / 10 / 10) 10)) by (Z.div_mod_to_equations; lia).
  unfold pad4, pad2.
  replace (y / 10 / 10 / 10 mod 10) with (y / 1000)
    by (Z.div_mod_to_equations; lia).
  replace (y / 10 / 10 mod 10) with (y / 100 mod 10)
    by (Z.div_mod_to_equations; lia).
  replace (y / 10 mod 10) with (y mod 100 / 10)
    by (Z.div_mod_to_equations; lia).
  replace (y mod 100 mod 10) with (y mod 10)
    by (Z.div_mod_to_equations; lia).
  reflexivity.
Qed.

Lemma year_text d :
  1000 <= year d <= 9999 ∨ zero_pads_year = true →
  directive "Y" d = pad4 (year d).
Proof.
  intros Hy. unfold directive.
  rewrite decide_False by discriminate. rewrite decide_False by discriminate.
  rewrite decide_True by reflexivity.
  destruct zero_pads_year; [done|]. apply decimal_four.
  destruct Hy; [done | discriminate].
Qed.

Lemma strftime_iso d :
  1000 <= year d <= 9999 ∨ zero_pads_year = true →
  strftime d "%Y-%m-%d" = iso_text d.
Proof.
  intros Hy. unfold iso_text. cbn [strftime]. by rewrite (year_text d Hy).
Qed.

Lemma strftime_dmY d :
  1000 <= year d <= 9999 ∨ zero_pads_year = true →
  strftime d "%d.%m.%Y"
  = pad2 (day d) +:+ "." +:+ pad2 (month d) +:+ "." +:+ pad4 (year d).
Proof.
  intros Hy. cbn [strftime]. rewrite (year_text d Hy).
  unfold directive. rewrite decide_True by reflexivity.
  rewrite decide_False by discriminate. rewrite decide_True by reflexivity.
  by rewrite app_empty_r.
Qed.
End Rendering.

(** ** The upcoming-birthdays query *)

Section Upcoming.
Context `{Platform}.
Local Open Scope Z_scope.

(** One pass of the loop body that appends an entry. *)
Lemma upcoming_step_some today r b e :
  AddressBook.upcoming_step today r b = ok (Some e) →
  let occ := next_occurrence (birthday_value b) today in
  date_ok occ ∧ in_window (birthday_value b) today
  ∧ ∃ cd, date_ok cd
          ∧ toordinal cd
            = toordinal occ + (if 5 <=? weekday occ then 7 - weekday occ else 0)
          ∧ (weekday occ < 5 → cd = occ)
          ∧ e = mkEntry (name_value (name r)) (strftime cd "%Y-%m-%d").
Proof.
  unfold AddressBook.upcoming_step, replace_year, in_window, next_occurrence,
    with_year.
  destruct (date_init (year today) _ _) as [e1 | d1] eqn:E1; [discriminate|].
  apply date_init_ok in E1 as [-> Hcal1]. cbn [year month day].
  destruct (date_ltb _ today);
    [ destruct (date_init (year today + 1) _ _) as [e2 | d2] eqn:E2;
      [discriminate|]; apply date_init_ok in E2 as [-> Hcal2] | ];
    unfold ok;
    match goal with
    | |- context [days_between ?o today] => set (occ := o) in *
    end;
    (destruct ((0 <=? days_between occ today) && (days_between occ today <=? 7))
       eqn:Hwin; [|discriminate]);
    apply andb_true_iff in Hwin as [Hw0 Hw7];
    apply Z.leb_le in Hw0, Hw7;
    (destruct (Z.leb_spec 5 (weekday occ)) as [Hwd | Hwd];
     [ destruct (add_days occ (7 - weekday occ)) as [e3 | cd] eqn:Ea;
       [discriminate|]; apply add_days_ok in Ea as [Hord Hcd];
       intros [= <-]; split; [done|]; split; [done|];
       exists cd; split; [exact Hcd|]; split; [exact Hord|];
       split; [intros; lia | reflexivity]
     | intros [= <-]; split; [done|]; split; [done|];
       exists occ; split; [done|]; split; [lia|]; split; reflexivity ]).
Qed.

(** Every entry of the output comes from a pass of the loop body. *)
Lemma upcoming_loop_In today records upcoming st out st' e :
  AddressBook.upcoming_loop today records upcoming st = (ok out, st') →
  In e out →
  In e upcoming
  ∨ ∃ l r b, In l records ∧ heap st !! l = Some r ∧ birthday r = Some b
             ∧ AddressBook.upcoming_step today r b = ok (Some e).
Proof.
  revert upcoming. induction records as [|l rest IH]; intros upcoming.
  - intros [= <- _] Hin. by left.
  - rewrite upcoming_loop_cons.
    destruct (heap st !! l) as [r|] eqn:Hl; [|discriminate].
    destruct (birthday r) as [b|] eqn:Hb.
    + destruct (AddressBook.upcoming_step today r b) as [e1 | [entry|]] eqn:Hs;
        [discriminate | |].
      * intros Hrun Hin. destruct (IH _ Hrun Hin) as [Hacc | Hrest].
        -- apply in_app_or in Hacc as [Hacc | [<- | []]]; [by left|].
           right. exists l, r, b. repeat split; try done. by left.
        -- right. destruct Hrest as (l0 & r0 & b0 & Hl0 & Hrest).
           exists l0, r0, b0. split; [by right | done].
      * intros Hrun Hin. destruct (IH _ Hrun Hin) as [Hacc | Hrest]; [by left|].
        right. destruct Hrest as (l0 & r0 & b0 & Hl0 & Hrest).
        exists l0, r0, b0. split; [by right | done].
    + intros Hrun Hin. destruct (IH _ Hrun Hin) as [Hacc | Hrest]; [by left|].
      right. destruct Hrest as (l0 & r0 & b0 & Hl0 & Hrest).
      exists l0, r0, b0. split; [by right | done].
Qed.

(** The year of the congratulation date has four digits when today's
    year has. *)
Lemma iso_of_entry today bd cd :
  1000 <= year today ∨ zero_pads_year = true →
  date_ok (next_occurrence bd today) → date_ok cd →
  toordinal cd
  = toordinal (next_occurrence bd today)
    + (if 5 <=? weekday (next_occurrence bd today)
       then 7 - weekday (next_occurrence bd today) else 0) →
  strftime cd "%Y-%m-%d" = iso_text cd.
Proof.
  intros Hyear Hocc Hcd Hord. apply strftime_iso.
  destruct Hyear as [Hyear | Hpad]; [left | by right].
  pose proof Hcd as (Hy & _). unfold MINYEAR, MAXYEAR in Hy. split; [|lia].
  assert (year today <= year (next_occurrence bd today)) as Hy1.
  { unfold next_occurrence, with_year. destruct (date_ltb _ today); simpl; lia. }
  assert (toordinal (next_occurrence bd today) <= toordinal cd) as Hle.
  { rewrite Hord. pose proof (weekday_range (next_occurrence bd today)).
    destruct (5 <=? weekday _); lia. }
  pose proof (year_le_of_ordinal _ _ Hocc Hcd Hle). lia.
Qed.

(** C2. For every entry of the output of the query, the congratulation
    date is the occurrence of the birthday, moved to the following Monday
    when the occurrence is a Saturday (two days later) or a Sunday (one day
    later), that is by [7 - weekday] days, and it is written YYYY-MM-DD.
    The four-digit year is that of the C library for years from 1000 on. *)
Theorem congratulation_date_spec (today : date) (st st' : State)
        (out : list upcoming_entry) (e : upcoming_entry) :
  1000 <= year today ∨ zero_pads_year = true →
  AddressBook.get_upcoming_birthdays today st = (ok out, st') →
  In e out →
  ∃ l r b cd,
    In l (dict_values (data st)) ∧ heap st !! l = Some r
    ∧ birthday r = Some b ∧ entry_name e = name_value (name r)
    ∧ let occ := next_occurrence (birthday_value b) today in
      date_ok occ ∧ in_window (birthday_value b) today ∧ date_ok cd
      ∧ (weekday occ < 5 → cd = occ)
      ∧ (weekday occ = 5 → toordinal cd = toordinal occ + 2 ∧ weekday cd = 0)
      ∧ (weekday occ = 6 → toordinal cd = toordinal occ + 1 ∧ weekday cd = 0)
      ∧ (5 <= weekday occ → toordinal cd - toordinal occ = 7 - weekday occ)
      ∧ entry_birthday e = iso_text cd.
Proof.
  intros Hyear Hrun Hin.
  unfold AddressBook.get_upcoming_birthdays in Hrun.
  rewrite (bind_ok get _ st st st eq_refl) in Hrun.
  destruct (upcoming_loop_In _ _ _ _ _ _ _ Hrun Hin)
    as [[] | (l & r & b & Hl & Hr & Hb & Hstep)].
  apply upcoming_step_some in Hstep
    as (Hocc & Hwin & cd & Hcd & Hord & Hweek & ->).
  exists l, r, b, cd.
  split; [done|]. split; [done|]. split; [done|]. split; [done|].
  split; [done|]. split; [done|]. split; [done|]. split; [done|].
  set (occ := next_occurrence (birthday_value b) today) in *.
  pose proof (weekday_range occ) as Hrange.
  pose proof (iso_of_entry _ _ _ Hyear Hocc Hcd Hord) as Hiso.
  revert Hord. destruct (Z.leb_spec 5 (weekday occ)) as [Hwd | Hwd]; intros Hord.
  - assert (weekday cd = 0) as Hmon.
    { rewrite (weekday_add occ cd (7 - weekday occ) Hord).
      replace (weekday occ + (7 - weekday occ)) with 7 by lia. reflexivity. }
    split; [intros Hsat; split; [lia | done]|].
    split; [intros Hsun; split; [lia | done]|].
    split; [lia|]. exact Hiso.
  - split; [lia|]. split; [lia|]. split; [lia|]. exact Hiso.
Qed.
End Upcoming.

(** ** What the query reports when it returns, and when it returns *)

Section Reported.
Context `{Platform}.
Local Open Scope Z_scope.

Lemma in_windowb_spec b today : in_windowb b today = true ↔ in_window b today.
Proof.
  unfold in_windowb, in_window. rewrite andb_true_iff, !Z.leb_le. tauto.
Qed.

(** A pass of the loop body that appends nothing. *)
Lemma upcoming_step_none today r b :
  AddressBook.upcoming_step today r b = ok None →
  in_windowb (birthday_value b) today = false.
Proof.
  unfold AddressBook.upcoming_step, replace_year, in_windowb, next_occurrence,
    with_year.
  destruct (date_init (year today) _ _) as [e1 | d1] eqn:E1; [discriminate|].
  apply date_init_ok in E1 as [-> Hcal1]. cbn [year month day].
  destruct (date_ltb _ today);
    [ destruct (date_init (year today + 1) _ _) as [e2 | d2] eqn:E2;
      [discriminate|]; apply date_init_ok in E2 as [-> Hcal2] | ];
    unfold ok;
    match goal with
    | |- context [days_between ?o today] => set (occ := o) in *
    end;
    (destruct ((0 <=? days_between occ today) && (days_between occ today <=? 7));
     [|done]);
    (destruct (5 <=? weekday occ);
     [destruct (add_days occ (7 - weekday occ)) |]); discriminate.
Qed.

Lemma upcoming_loop_names today records upcoming st out st' :
  AddressBook.upcoming_loop today records upcoming st = (ok out, st') →
  map entry_name out
  = (map entry_name upcoming
     ++ map (λ r, name_value (name r))
            (List.filter (due today) (omap (λ l, heap st !! l) records)))%list.
Proof.
  revert upcoming. induction records as [|l rest IH]; intros upcoming.
  - intros [= <- _]. simpl. by rewrite app_nil_r.
  - rewrite upcoming_loop_cons. cbn [omap list_omap].
    destruct (heap st !! l) as [r|] eqn:Hl; [|discriminate].
    cbn [List.filter]. unfold due at 1.
    destruct (birthday r) as [b|] eqn:Hb; [|by apply IH].
    destruct (AddressBook.upcoming_step today r b) as [e1 | [entry|]] eqn:Hs;
      [discriminate | |].
    + apply upcoming_step_some in Hs as (_ & Hwin & cd & _ & _ & _ & ->).
      apply in_windowb_spec in Hwin. rewrite Hwin. intros Hrun.
      rewrite (IH _ Hrun), map_app. cbn [map entry_name].
      by rewrite <- app_assoc.
    + apply upcoming_step_none in Hs. rewrite Hs. by apply IH.
Qed.

(** X12. When the query returns, it reports, in the order of the book, exactly
    the contacts that have a birthday whose next occurrence lies between 0
    and 7 days after today. *)
Theorem upcoming_names (today : date) (st st' : State)
        (out : list upcoming_entry) :
  AddressBook.get_upcoming_birthdays today st = (ok out, st') →
  map entry_name out
  = map (λ r, name_value (name r)) (List.filter (due today) (records_of st)).
Proof.
  unfold AddressBook.get_upcoming_birthdays.
  rewrite (bind_ok get _ st st st eq_refl). apply upcoming_loop_names.
Qed.

Lemma toordinal_range d : date_ok d → 1 <= toordinal d <= _MAXORDINAL.
Proof.
  intros (Hy & Hm & Hd). unfold MINYEAR, MAXYEAR in Hy.
  pose proof (day_of_year_range _ _ _ Hm Hd) as Hdoy.
  pose proof (days_before_year_succ (year d)) as Hsucc.
  pose proof (days_before_year_mono 1 (year d) ltac:(lia)) as Hlo.
  pose proof (days_before_year_mono (year d + 1) 10000 ltac:(lia)) as Hhi.
  change (_days_before_year 1) with 0 in Hlo.
  change (_days_before_year 10000) with 3652059 in Hhi.
  unfold toordinal, _ymd2ord, _MAXORDINAL. destruct (_is_leap (year d)); lia.
Qed.

Lemma replace_year_every_year bd y :
  every_year bd → 1 <= y <= 9999 → replace_year bd y = ok (with_year bd y).
Proof.
  intros [(_ & Hm & Hd) Hfeb] Hy. unfold replace_year, with_year.
  apply date_init_calendar. split; [done|]. split; [done|].
  revert Hd. unfold _days_in_month.
  destruct (Z.eqb_spec (month bd) 2) as [Hm2 | Hm2]; cbn [andb]; [|done].
  rewrite Hm2. change (table _DAYS_IN_MONTH 2) with 28.
  destruct (_is_leap (year bd)), (_is_leap y); lia.
Qed.

Lemma every_year_with_year bd y :
  every_year bd → 1 <= y <= 9999 → every_year (with_year bd y).
Proof.
  intros Hbd Hy. pose proof (replace_year_every_year bd y Hbd Hy) as Hr.
  apply date_init_ok in Hr as [_ Hcal]. destruct Hbd as [_ Hfeb].
  split; [exact Hcal | exact Hfeb].
Qed.

(** The shift of a weekend date to the Monday stays in the range of dates. *)
Lemma add_days_weekend occ :
  date_ok occ → 5 <= weekday occ →
  ∃ cd, add_days occ (7 - weekday occ) = ok cd.
Proof.
  intros Hocc Hwd. pose proof (toordinal_range occ Hocc) as Hr.
  pose proof (weekday_range occ) as Hw. unfold add_days, weekday in *.
  unfold _MAXORDINAL in *.
  rewrite (proj2 (Z.ltb_lt _ _)) by lia.
  rewrite (proj2 (Z.leb_le _ _)) by (Z.div_mod_to_equations; lia).
  eauto.
Qed.

Lemma upcoming_step_returns today r b :
  1 <= year today < 9999 → every_year (birthday_value b) →
  ∃ res, AddressBook.upcoming_step today r b = ok res.
Proof.
  intros Hy Hb. unfold AddressBook.upcoming_step.
  rewrite (replace_year_every_year _ (year today) Hb) by lia. unfold ok at 1.
  pose proof (every_year_with_year _ (year today) Hb ltac:(lia)) as Hb1.
  assert (∃ occ, (if date_ltb (with_year (birthday_value b) (year today)) today
                  then replace_year (with_year (birthday_value b) (year today))
                                    (year today + 1)
                  else ok (with_year (birthday_value b) (year today)))
                 = ok occ ∧ date_ok occ) as (occ & -> & Hocc).
  { destruct (date_ltb _ today).
    - rewrite (replace_year_every_year _ (year today + 1) Hb1) by lia.
      eexists. split; [reflexivity|].
      apply (every_year_with_year _ (year today + 1) Hb1). lia.
    - eexists. split; [reflexivity | apply Hb1]. }
  unfold ok at 1.
  destruct ((0 <=? days_between occ today) && (days_between occ today <=? 7));
    [|by eexists].
  destruct (Z.leb_spec 5 (weekday occ)) as [Hwd | Hwd]; [|by eexists].
  destruct (add_days_weekend occ Hocc Hwd) as (cd & ->). by eexists.
Qed.

Lemma upcoming_loop_returns today records upcoming st :
  1 <= year today < 9999 →
  (∀ l, In l records →
        ∃ r, heap st !! l = Some r
             ∧ ∀ b, birthday r = Some b → every_year (birthday_value b)) →
  ∃ out, AddressBook.upcoming_loop today records upcoming st = (ok out, st).
Proof.
  intros Hy. revert upcoming.
  induction records as [|l rest IH]; intros upcoming Hrecs; [by eexists|].
  rewrite upcoming_loop_cons.
  destruct (Hrecs l ltac:(by left)) as (r & -> & Hb).
  assert (∀ l, In l rest →
               ∃ r, heap st !! l = Some r
                    ∧ ∀ b, birthday r = Some b → every_year (birthday_value b))
    as Hrest by (intros l0 Hl0; apply Hrecs; by right).
  destruct (birthday r) as [b|]; [|by apply IH].
  destruct (upcoming_step_returns today r b Hy (Hb b eq_refl)) as ([e|] & ->);
    by apply IH.
Qed.

(** X13. The query returns a list, and raises nothing, when today is before the
    last year of the calendar and no birthday of the book is a 29th of
    February. *)
Theorem get_upcoming_birthdays_returns (today : date) (st : State) :
  1 <= year today < 9999 →
  (∀ l, In l (dict_values (data st)) →
        ∃ r, heap st !! l = Some r
             ∧ ∀ b, birthday r = Some b → every_year (birthday_value b)) →
  ∃ out, AddressBook.get_upcoming_birthdays today st = (ok out, st).
Proof.
  intros Hy Hrecs. unfold AddressBook.get_upcoming_birthdays.
  rewrite (bind_ok get _ st st st eq_refl). by apply upcoming_loop_returns.
Qed.
End Reported.

(** ** Parsing dates *)

Lemma code_inj a b : code a = code b → a = b.
Proof.
  unfold code. intros Hab.
  rewrite <- (ascii_N_embedding a), <- (ascii_N_embedding b). by rewrite Hab.
Qed.

Lemma chars_inv s l : chars s = l → s = string_of_list_ascii l.
Proof. intros <-. unfold chars. by rewrite string_of_list_ascii_of_string. Qed.

Lemma cls_range lo hi c :
  cls_match (CRange lo hi) c = true → (code lo <= code c <= code hi)%N.
Proof. simpl. rewrite andb_true_iff, !N.leb_le. tauto. Qed.

Lemma cls_char x c : cls_match (CChar x) c = true → c = x.
Proof. simpl. rewrite N.eqb_eq. apply code_inj. Qed.

Lemma match_alt_sound a s m s1 :
  match_alt a s = Some (m, s1) →
  s = m +:+ s1 ∧ Forall2 (λ k c, cls_match k c = true) a (chars m).
Proof.
  revert s m s1. induction a as [|k a IH]; intros s m s1.
  - intros [= <- <-]. split; [done | constructor].
  - destruct s as [|c s]; [done|]. cbn [match_alt].
    destruct (cls_match k c) eqn:Hk; [|done].
    destruct (match_alt a s) as [[m' r']|] eqn:Ha; [|done].
    intros [= <- <-]. destruct (IH _ _ _ Ha) as [-> Hall].
    split; [by rewrite app_cons | by constructor].
Qed.

Lemma first_some_Some {A B} (f : A → option B) l b :
  first_some f l = Some b → ∃ a, In a l ∧ f a = Some b.
Proof.
  induction l as [|a l IH]; [done|]. simpl.
  destruct (f a) as [b'|] eqn:Hf.
  - intros [= <-]. exists a. auto.
  - intros Hl. destruct (IH Hl) as (a' & Hin & Ha'). exists a'. auto.
Qed.

Lemma match_seq_group nm alts r s caps rest :
  match_seq (Group nm alts :: r) s = Some (caps, rest) →
  ∃ a m s1 caps',
    In a alts ∧ match_alt a s = Some (m, s1)
    ∧ match_seq r s1 = Some (caps', rest) ∧ caps = (nm, m) :: caps'.
Proof.
  cbn [match_seq]. intros Hf. apply first_some_Some in Hf as (a & Hin & Ha).
  destruct (match_alt a s) as [[m s1]|] eqn:Hm; [|done].
  destruct (match_seq r s1) as [[caps' rest']|] eqn:Hr; [|done].
  injection Ha as <- <-. by exists a, m, s1, caps'.
Qed.

Lemma match_seq_literal c r s caps rest :
  match_seq (Literal c :: r) s = Some (caps, rest) →
  ∃ s', s = String c s' ∧ match_seq r s' = Some (caps, rest).
Proof.
  cbn [match_seq]. destruct s as [|c' s']; [done|].
  destruct (N.eqb_spec (code c') (code c)) as [Hc|]; [|done].
  apply code_inj in Hc as ->. intros Hr. by exists s'.
Qed.

Lemma strptime_date_err s e :
  strptime_date s "%d.%m.%Y" = inl e → exn_cls e = ValueError.
Proof.
  unfold strptime_date.
  destruct (format_regex _) as [items|]; [|by intros [= <-]].
  destruct (match_seq items s) as [[caps [|c rest]]|]; try by intros [= <-].
  apply date_init_err.
Qed.

(** A successful parse splits the data into day, month and year fields,
    each matched by an alternative of its group. *)
Lemma strptime_date_sound s d :
  strptime_date s "%d.%m.%Y" = ok d →
  ∃ ad am dd mm yyyy,
    In ad re_d ∧ In am re_m ∧ s = dmy_text dd mm yyyy
    ∧ Forall2 (λ k c, cls_match k c = true) ad (chars dd)
    ∧ Forall2 (λ k c, cls_match k c = true) am (chars mm)
    ∧ Forall2 (λ k c, cls_match k c = true)
              [digit_cls; digit_cls; digit_cls; digit_cls] (chars yyyy)
    ∧ date_init (int yyyy) (int mm) (int dd) = ok d.
Proof.
  unfold strptime_date.
  change (format_regex "%d.%m.%Y")
    with (Some [Group "d" re_d; Literal "."; Group "m" re_m; Literal ".";
                Group "Y" re_Y]).
  cbv beta iota.
  destruct (match_seq _ s) as [[caps [|c rest]]|] eqn:Hm; try done.
  apply match_seq_group in Hm as (ad & dd & s1 & caps1 & Had & Hd & Hm & ->).
  apply match_seq_literal in Hm as (s2 & -> & Hm).
  apply match_seq_group in Hm as (am & mm & s3 & caps3 & Ham & Hmm & Hm & ->).
  apply match_seq_literal in Hm as (s4 & -> & Hm).
  apply match_seq_group in Hm as (ay & yyyy & s5 & caps5 & Hay & Hy & Hm & ->).
  injection Hm as <- ->. destruct Hay as [<- | []].
  apply match_alt_sound in Hd as [-> Hd], Hmm as [-> Hmm], Hy as [-> Hy].
  change (found _ "Y" 1900) with (int yyyy).
  change (found _ "m" 1) with (int mm).
  change (found _ "d" 1) with (int dd).
  intros Hinit. exists ad, am, dd, mm, yyyy.
  repeat split; try done. unfold dmy_text. by rewrite app_empty_r.
Qed.

Lemma decimal_digits_nil : decimal_digits "".
Proof. intros c []. Qed.

Lemma decimal_digits_cons c s :
  decimal_digits (String c s) ↔ (48 <= code c <= 57)%N ∧ decimal_digits s.
Proof.
  unfold decimal_digits, chars. simpl. split.
  - intros Hall. split; [apply Hall; auto | intros c' Hin; apply Hall; auto].
  - intros [Hc Hs] c' [<- | Hin]; auto.
Qed.

Lemma Forall2_chars {K} (P : K → ascii → Prop) ks s :
  Forall2 P ks (chars s) → ∃ cs, s = string_of_list_ascii cs ∧ Forall2 P ks cs.
Proof. intros Hall. exists (chars s). split; [by apply chars_inv | done]. Qed.

Ltac eval_codes :=
  repeat match goal with
         | H : context [code (Ascii ?a ?b ?c ?d ?e ?f ?g ?h)] |- _ =>
             let v := eval vm_compute in (code (Ascii a b c d e f g h)) in
             change (code (Ascii a b c d e f g h)) with v in H
         | |- context [code (Ascii ?a ?b ?c ?d ?e ?f ?g ?h)] =>
             let v := eval vm_compute in (code (Ascii a b c d e f g h)) in
             change (code (Ascii a b c d e f g h)) with v
         end.

(** Turns the hypotheses [Forall2 cls_match ks cs] on a known list [ks] of
    classes into bounds on the codes of the characters. *)
Ltac cls_facts :=
  repeat match goal with
         | H : Forall2 _ (_ :: _) _ |- _ =>
             let k := fresh "k" in let c := fresh "c" in
             let ks := fresh "ks" in let cs := fresh "cs" in
             let Hk := fresh "Hk" in let Hr := fresh "Hr" in
             inversion H as [|k c ks cs Hk Hr]; subst; clear H
         | H : Forall2 _ [] _ |- _ => inversion H; subst; clear H
         | H : cls_match (CRange _ _) _ = true |- _ => apply cls_range in H
         | H : cls_match digit_cls _ = true |- _ => apply cls_range in H
         | H : cls_match (CChar _) _ = true |- _ => apply cls_char in H; subst
         end;
  eval_codes.

Ltac digits_goal :=
  repeat (apply decimal_digits_cons; split; [eval_codes; lia|]);
  apply decimal_digits_nil.

Lemma year_field yyyy :
  Forall2 (λ k c, cls_match k c = true)
          [digit_cls; digit_cls; digit_cls; digit_cls] (chars yyyy) →
  decimal_digits yyyy ∧ String.length yyyy = 4.
Proof.
  intros Hy. apply Forall2_chars in Hy as (cs & -> & Hy). cls_facts. simpl.
  split; [digits_goal | done].
Qed.

Lemma month_field am mm :
  In am re_m → Forall2 (λ k c, cls_match k c = true) am (chars mm) →
  decimal_digits mm ∧ width false (String.length mm).
Proof.
  intros Hin Hm. apply Forall2_chars in Hm as (cs & -> & Hm).
  simpl in Hin. repeat destruct Hin as [<- | Hin]; try done;
    cls_facts; simpl; (split; [digits_goal | auto]).
Qed.

Lemma day_field ad dd :
  In ad re_d → Forall2 (λ k c, cls_match k c = true) ad (chars dd) →
  (decimal_digits dd ∧ width false (String.length dd))
  ∨ ∃ rest, dd = String " " rest.
Proof.
  intros Hin Hd. apply Forall2_chars in Hd as (cs & -> & Hd).
  simpl in Hin. repeat destruct Hin as [<- | Hin]; try done;
    cls_facts; simpl;
    first [ left; split; [digits_goal | auto]; fail | right; eauto ].
Qed.

Lemma one_or_two s :
  width false (String.length s) →
  (∃ c1, s = String c1 "") ∨ (∃ c1 c2, s = String c1 (String c2 "")).
Proof.
  destruct s as [|c1 [|c2 [|c3 s]]]; simpl; intros [Hw | Hw]; try done; eauto.
Qed.

Lemma four_chars s :
  String.length s = 4 →
  ∃ c1 c2 c3 c4, s = String c1 (String c2 (String c3 (String c4 ""))).
Proof.
  destruct s as [|c1 [|c2 [|c3 [|c4 [|c5 s]]]]]; simpl; try done.
  intros _. by exists c1, c2, c3, c4.
Qed.

Lemma days_in_month_le y m : (1 <= m <= 12 → _days_in_month y m <= 31)%Z.
Proof.
  intros Hm. unfold _days_in_month.
  assert (m = 1 ∨ m = 2 ∨ m = 3 ∨ m = 4 ∨ m = 5 ∨ m = 6 ∨ m = 7 ∨ m = 8
          ∨ m = 9 ∨ m = 10 ∨ m = 11 ∨ m = 12)%Z as Hcases by lia.
  destruct (_is_leap y);
    repeat (destruct Hcases as [-> | Hcases]); try subst m; eval_closed; lia.
Qed.

(** Decides the tests of the matcher on characters whose codes are bounded
    by the hypotheses. *)
Ltac case_tests :=
  repeat (eval_codes;
          match goal with
          | |- context [N.leb ?a ?b] => destruct (N.leb_spec a b); try lia
          | |- context [N.eqb ?a ?b] => destruct (N.eqb_spec a b); try lia
          end; cbn [andb]; cbv iota beta).

Section Commit.
Context {R : Type} (K : string → string → option R) (res : R).

(** The day group, followed by a dot, commits to the day field. *)
Lemma day_commits dd tail :
  decimal_digits dd → width false (String.length dd) →
  (1 <= int dd <= 31)%Z →
  K dd (String "." tail) = Some res →
  try_alts K re_d (dd +:+ String "." tail) = Some res.
Proof.
  intros Hdd Hwd Hd HK. unfold int in Hd. unfold try_alts.
  apply one_or_two in Hwd as [(d1 & ->) | (d1 & d2 & ->)];
    repeat match goal with
           | H : decimal_digits (String _ _) |- _ =>
               apply decimal_digits_cons in H as [? H]
           end;
    cbn [int_acc] in Hd; unfold digit_val in Hd;
    rewrite ?app_cons, ?app_empty_l;
    cbn [first_some fold_right re_d digit_cls match_alt cls_match];
    case_tests; rewrite HK; reflexivity.
Qed.

(** The month group, followed by a dot, commits to the month field. *)
Lemma month_commits mm tail :
  decimal_digits mm → width false (String.length mm) →
  (1 <= int mm <= 12)%Z →
  K mm (String "." tail) = Some res →
  try_alts K re_m (mm +:+ String "." tail) = Some res.
Proof.
  intros Hmm Hwm Hm HK. unfold int in Hm. unfold try_alts.
  apply one_or_two in Hwm as [(m1 & ->) | (m1 & m2 & ->)];
    repeat match goal with
           | H : decimal_digits (String _ _) |- _ =>
               apply decimal_digits_cons in H as [? H]
           end;
    cbn [int_acc] in Hm; unfold digit_val in Hm;
    rewrite ?app_cons, ?app_empty_l;
    cbn [first_some fold_right re_m digit_cls match_alt cls_match];
    case_tests; rewrite HK; reflexivity.
Qed.

(** The year group takes four digits. *)
Lemma year_commits yyyy tail :
  decimal_digits yyyy → String.length yyyy = 4 →
  K yyyy tail = Some res →
  try_alts K re_Y (yyyy +:+ tail) = Some res.
Proof.
  intros Hyy Hwy HK. unfold try_alts.
  apply four_chars in Hwy as (y1 & y2 & y3 & y4 & ->).
  repeat match goal with
         | H : decimal_digits (String _ _) |- _ =>
             apply decimal_digits_cons in H as [? H]
         end.
  rewrite ?app_cons, ?app_empty_l.
  cbn [first_some fold_right re_Y digit_cls match_alt cls_match].
  case_tests. rewrite HK. reflexivity.
Qed.
End Commit.

Lemma match_dmY dd mm yyyy :
  decimal_digits dd → decimal_digits mm → decimal_digits yyyy →
  width false (String.length dd) → width false (String.length mm) →
  String.length yyyy = 4 →
  (1 <= int mm <= 12)%Z → (1 <= int dd <= 31)%Z →
  match_seq [Group "d" re_d; Literal "."; Group "m" re_m; Literal ".";
             Group "Y" re_Y] (dmy_text dd mm yyyy)
  = Some ([("d"%char, dd); ("m"%char, mm); ("Y"%char, yyyy)], "").
Proof.
  intros Hdd Hmm Hyy Hwd Hwm Hwy Hm Hd. unfold dmy_text.
  change ("." +:+ mm +:+ "." +:+ yyyy) with (String "." (mm +:+ "." +:+ yyyy)).
  change ("." +:+ yyyy) with (String "." yyyy).
  assert (match_seq [Group "Y" re_Y] yyyy = Some ([("Y"%char, yyyy)], ""))
    as HY.
  { rewrite <- (app_empty_r yyyy) at 1. cbn [match_seq].
    by apply year_commits. }
  assert (match_seq [Group "m" re_m; Literal "."; Group "Y" re_Y]
                    (mm +:+ String "." yyyy)
          = Some ([("m"%char, mm); ("Y"%char, yyyy)], "")) as HM.
  { cbn [match_seq]. apply month_commits; [done..|].
    change (code "." =? code ".")%N with true. cbv iota.
    change (first_some _ re_Y) with (match_seq [Group "Y" re_Y] yyyy).
    by rewrite HY. }
  cbn [match_seq]. apply day_commits; [done..|].
  change (code "." =? code ".")%N with true. cbv iota.
  change (first_some _ re_m)
    with (match_seq [Group "m" re_m; Literal "."; Group "Y" re_Y]
                    (mm +:+ String "." yyyy)).
  by rewrite HM.
Qed.

Lemma lstrip_head t c s : lstrip t = String c s → is_space c = false.
Proof.
  induction t as [|c' t IH]; [done|]. simpl.
  destruct (is_space c') eqn:Hc; [done|]. by intros [= <- <-].
Qed.

Lemma rstrip_head t c s : rstrip t = String c s → ∃ t', t = String c t'.
Proof.
  destruct t as [|c' t]; [done|]. simpl.
  destruct (rstrip t); [destruct (is_space c'); [done|]|]; intros [= <- <-]; eauto.
Qed.

Lemma strip_head text c s : strip text = String c s → is_space c = false.
Proof.
  unfold strip. intros Hs. apply rstrip_head in Hs as (t' & Hs).
  by apply lstrip_head in Hs.
Qed.

Lemma calendar_fields y m d :
  calendar_date y m d → (1 <= m <= 12 ∧ 1 <= d <= 31)%Z.
Proof.
  intros (_ & Hm & Hd). pose proof (days_in_month_le y m Hm). lia.
Qed.

(** On data that does not begin with a space, [strptime] with the format
    ["%d.%m.%Y"] accepts exactly the written dates with one- or two-digit
    day and month. *)
Lemma strptime_date_written s d :
  (∀ c s', s = String c s' → is_space c = false) →
  strptime_date s "%d.%m.%Y" = ok d ↔ D_M_YYYY s d.
Proof.
  intros Hhead. split.
  - intros Hparse.
    apply strptime_date_sound in Hparse
      as (ad & am & dd & mm & yyyy & Had & Ham & -> & Hd & Hm & Hy & Hinit).
    apply date_init_ok in Hinit as [-> Hcal].
    apply year_field in Hy as [Hy Hwy]. apply (month_field _ _ Ham) in Hm as [Hm Hwm].
    apply (day_field _ _ Had) in Hd as [[Hd Hwd] | (rest & ->)].
    + by exists dd, mm, yyyy.
    + by specialize (Hhead " "%char _ eq_refl).
  - intros (dd & mm & yyyy & -> & Hd & Hm & Hy & Hwd & Hwm & Hwy & Hcal & ->).
    destruct (calendar_fields _ _ _ Hcal) as [Hmr Hdr].
    unfold strptime_date.
    change (format_regex "%d.%m.%Y")
      with (Some [Group "d" re_d; Literal "."; Group "m" re_m; Literal ".";
                  Group "Y" re_Y]).
    cbv beta iota. rewrite match_dmY by done.
    change (found _ "Y" 1900) with (int yyyy).
    change (found _ "m" 1) with (int mm).
    change (found _ "d" 1) with (int dd).
    by apply date_init_calendar.
Qed.

Lemma Birthday_init_cases text :
  Birthday_init text
  = match strptime_date (strip text) "%d.%m.%Y" with
    | inr d => ok (mkBirthday d)
    | inl _ => err ValueError "Birthday date must be in 'DD.MM.YYYY' format."
    end.
Proof.
  unfold Birthday_init.
  destruct (strptime_date _ _) as [e | d] eqn:Hp; [|done].
  by rewrite (strptime_date_err _ _ Hp).
Qed.

Lemma digit_char_val c : digit_char (digit_val c) = c.
Proof.
  unfold digit_char, digit_val.
  replace (48 + (Z.of_N (code c) - 48))%Z with (Z.of_N (code c)) by lia.
  rewrite N2Z.id. apply ascii_N_embedding.
Qed.

Lemma digit_val_range c : (48 <= code c <= 57)%N → (0 <= digit_val c <= 9)%Z.
Proof. unfold digit_val. lia. Qed.

Lemma pad2_int c1 c2 :
  (48 <= code c1 <= 57)%N → (48 <= code c2 <= 57)%N →
  pad2 (int (String c1 (String c2 ""))) = String c1 (String c2 "").
Proof.
  intros H1%digit_val_range H2%digit_val_range. unfold pad2, int. cbn [int_acc].
  set (a := digit_val c1) in *. set (b := digit_val c2) in *.
  replace (((0 * 10 + a) * 10 + b) / 10)%Z with a
    by (Z.div_mod_to_equations; lia).
  replace (((0 * 10 + a) * 10 + b) mod 10)%Z with b
    by (Z.div_mod_to_equations; lia).
  subst a b. by rewrite !digit_char_val.
Qed.

Lemma pad4_int c1 c2 c3 c4 :
  (48 <= code c1 <= 57)%N → (48 <= code c2 <= 57)%N →
  (48 <= code c3 <= 57)%N → (48 <= code c4 <= 57)%N →
  pad4 (int (String c1 (String c2 (String c3 (String c4 "")))))
  = String c1 (String c2 (String c3 (String c4 ""))).
Proof.
  intros H1%digit_val_range H2%digit_val_range H3%digit_val_range
         H4%digit_val_range.
  unfold pad4, pad2, int. cbn [int_acc].
  set (a := digit_val c1) in *. set (b := digit_val c2) in *.
  set (c := digit_val c3) in *. set (d := digit_val c4) in *.
  set (n := ((((0 * 10 + a) * 10 + b) * 10 + c) * 10 + d)%Z).
  replace (n / 1000)%Z with a by (subst n; Z.div_mod_to_equations; lia).
  replace (n / 100 mod 10)%Z with b by (subst n; Z.div_mod_to_equations; lia).
  replace (n mod 100 / 10)%Z with c by (subst n; Z.div_mod_to_equations; lia).
  replace (n mod 100 mod 10)%Z with d by (subst n; Z.div_mod_to_equations; lia).
  subst a b c d. by rewrite !digit_char_val.
Qed.

Lemma two_chars s :
  String.length s = 2 → ∃ c1 c2, s = String c1 (String c2 "").
Proof. destruct s as [|c1 [|c2 [|c3 s]]]; simpl; try done. eauto. Qed.

Lemma no_space_app s1 s2 : no_space s1 → no_space s2 → no_space (s1 +:+ s2).
Proof.
  intros H1 H2 c. rewrite chars_app, in_app_iff. intros [Hin | Hin]; auto.
Qed.

Lemma dmy_text_no_space dd mm yyyy :
  decimal_digits dd → decimal_digits mm → decimal_digits yyyy →
  no_space (dmy_text dd mm yyyy).
Proof.
  intros Hd%decimal_digits_no_space Hm%decimal_digits_no_space
         Hy%decimal_digits_no_space.
  assert (no_space ".") as Hdot by (intros c [<- | []]; reflexivity).
  unfold dmy_text. auto using no_space_app.
Qed.

Lemma padded_is_written s d : DD_MM_YYYY s d → D_M_YYYY s d.
Proof.
  intros (dd & mm & yyyy & Ht & Hdd & Hmm & Hyy & Hwd & Hwm & Hrest).
  exists dd, mm, yyyy. simpl in Hwd, Hwm.
  split; [done|]. split; [done|]. split; [done|]. split; [done|].
  split; [by right|]. split; [by right|]. done.
Qed.

Section BirthdayRoundTrip.
Context `{Platform}.

(** Rendering a date written with two-digit day and month and a
    four-digit year gives the text back. *)
Lemma render_written text d :
  DD_MM_YYYY text d →
  (1000 <= year d)%Z ∨ zero_pads_year = true →
  Birthday_str (mkBirthday d) = text.
Proof.
  intros (dd & mm & yyyy & -> & Hd & Hm & Hy & Hwd & Hwm & Hwy & Hcal & ->) Hyear.
  unfold Birthday_str. cbn [birthday_value]. rewrite strftime_dmY.
  - cbn [year month day]. unfold dmy_text.
    apply two_chars in Hwd as (d1 & d2 & ->), Hwm as (m1 & m2 & ->).
    apply four_chars in Hwy as (y1 & y2 & y3 & y4 & ->).
    repeat match goal with
           | H : decimal_digits (String _ _) |- _ =>
               apply decimal_digits_cons in H as [? H]
           end.
    by rewrite !pad2_int, pad4_int.
  - cbn [year]. destruct Hcal as (Hyr & _).
    destruct Hyear as [Hyear | Hpad]; [left | by right].
    cbn [year] in Hyear. lia.
Qed.

(** C3 (as amended). [Birthday(text)] succeeds, and holds the date,
    whenever the trimmed text writes a calendar date in day.month.year order
    with a one- or two-digit day, a one- or two-digit month and a four-digit
    year; a trimmed text of ASCII characters is accepted in no other case
    and raises [ValueError] then; whatever [Birthday] rejects, it rejects
    with that [ValueError]; a text with two-digit day and month is rendered
    back unchanged, provided the year is at least 1000 or the C library pads
    the year with zeros.  (The class [\d] of [strptime] also holds of the
    decimal digits from U+0100 on, which are outside the model: what
    [Birthday] does not accept is stated for ASCII text.) *)
Theorem Birthday_init_spec (text : string) :
  (∀ d, D_M_YYYY (strip text) d → Birthday_init text = ok (mkBirthday d))
  ∧ (ascii_text (strip text) →
       (∀ b, Birthday_init text = ok b → D_M_YYYY (strip text) (birthday_value b))
       ∧ ((¬ ∃ d, D_M_YYYY (strip text) d) →
            Birthday_init text
            = err ValueError "Birthday date must be in 'DD.MM.YYYY' format."))
  ∧ (∀ e, Birthday_init text = inl e →
          e = Exn ValueError "Birthday date must be in 'DD.MM.YYYY' format.")
  ∧ (∀ d, DD_MM_YYYY text d →
          (1000 <= year d)%Z ∨ zero_pads_year = true →
          Birthday_init text = ok (mkBirthday d)
          ∧ Birthday_str (mkBirthday d) = text).
Proof.
  pose proof (strptime_date_written (strip text)) as Hparse.
  specialize (λ d, Hparse d (strip_head text)).
  split; [|split; [|split]].
  - intros d Hd. rewrite Birthday_init_cases. apply Hparse in Hd. by rewrite Hd.
  - intros _. split.
    + intros [d]. rewrite Birthday_init_cases. cbn [birthday_value].
      rewrite <- Hparse. destruct (strptime_date _ _) as [e | d']; [done|].
      by intros [= ->].
    + intros Hno. rewrite Birthday_init_cases.
      destruct (strptime_date _ _) as [e | d'] eqn:Hp; [done|].
      exfalso. apply Hno. exists d'. by apply Hparse.
  - intros e. rewrite Birthday_init_cases.
    destruct (strptime_date _ _) as [e' | d']; [by intros [= <-] | done].
  - intros d Hd Hyear. split; [|by apply render_written].
    rewrite Birthday_init_cases.
    assert (strip text = text) as Hs.
    { destruct Hd as (dd & mm & yyyy & -> & Hdd & Hmm & Hyy & _).
      by apply strip_no_space, dmy_text_no_space. }
    pose proof (padded_is_written _ _ Hd) as Hd'.
    rewrite <- Hs in Hd'. apply Hparse in Hd' as Hp. by rewrite Hp.
Qed.
End BirthdayRoundTrip.

Lemma Birthday_init_spec_witness :
  DD_MM_YYYY "17.03.1990" (mkdate 1990 3 17)
  ∧ Birthday_init "17.03.1990" = ok (mkBirthday (mkdate 1990 3 17))
  ∧ @Birthday_str glibc (mkBirthday (mkdate 1990 3 17)) = "17.03.1990".
Proof.
  assert (DD_MM_YYYY "17.03.1990" (mkdate 1990 3 17)) as Hw.
  { exists "17", "03", "1990".
    split; [reflexivity|]. split; [digits_goal|]. split; [digits_goal|].
    split; [digits_goal|]. split; [reflexivity|]. split; [reflexivity|].
    split; [reflexivity|]. split; [|reflexivity].
    vm_compute. repeat split; discriminate. }
  split; [exact Hw|].
  apply (proj2 (proj2 (proj2 (@Birthday_init_spec glibc "17.03.1990"))) _ Hw).
  left. simpl. lia.
Defined.

(** C3 (as stated) fails: a day and a month written with one digit are
    accepted. *)
Lemma Birthday_init_one_digit_counterexample :
  Birthday_init "1.3.1990" = ok (mkBirthday (mkdate 1990 3 1))
  ∧ ¬ ∃ d, DD_MM_YYYY (strip "1.3.1990") d.
Proof.
  split; [reflexivity|].
  intros (d & dd & mm & yyyy & Ht & Hd & _ & _ & Hwd & _).
  simpl in Hwd. apply two_chars in Hwd as (c1 & c2 & ->).
  change (strip "1.3.1990") with "1.3.1990" in Ht.
  unfold dmy_text in Ht. rewrite !app_cons in Ht. injection Ht as <- <- _.
  apply decimal_digits_cons in Hd as [_ Hd].
  apply decimal_digits_cons in Hd as [Hdot _].
  eval_codes. lia.
Qed.

(** Where the C library does not pad the year, a year below 1000 is
    rendered without its leading zeros. *)
Example Birthday_str_year_below_1000 :
  Birthday_init "02.01.0999" = ok (mkBirthday (mkdate 999 1 2))
  ∧ @Birthday_str glibc (mkBirthday (mkdate 999 1 2)) = "02.01.999"
  ∧ @Birthday_str padding_libc (mkBirthday (mkdate 999 1 2)) = "02.01.0999".
Proof. repeat split; reflexivity. Qed.

(** ** The query on concrete books *)

Lemma congratulation_date_spec_witness :
  let today := mkdate 2024 6 10 in
  let e := mkEntry "Bob" "2024-06-17" in
  @AddressBook.get_upcoming_birthdays glibc today june_book
  = (ok [mkEntry "Ann" "2024-06-12"; e], june_book)
  ∧ ∃ l r b cd,
      In l (dict_values (data june_book)) ∧ heap june_book !! l = Some r
      ∧ birthday r = Some b ∧ entry_name e = name_value (name r)
      ∧ let occ := next_occurrence (birthday_value b) today in
        date_ok occ ∧ in_window (birthday_value b) today ∧ date_ok cd
        ∧ (weekday occ < 5 → cd = occ)%Z
        ∧ (weekday occ = 5 → toordinal cd = toordinal occ + 2 ∧ weekday cd = 0)%Z
        ∧ (weekday occ = 6 → toordinal cd = toordinal occ + 1 ∧ weekday cd = 0)%Z
        ∧ (5 <= weekday occ → toordinal cd - toordinal occ = 7 - weekday occ)%Z
        ∧ entry_birthday e = iso_text cd.
Proof.
  intros today e. split; [reflexivity|].
  apply (@congratulation_date_spec glibc today june_book june_book
           [mkEntry "Ann" "2024-06-12"; e] e).
  - left. simpl. lia.
  - reflexivity.
  - right. left. reflexivity.
Defined.

(** C1 fails on the code: with a contact born on a 29th of February in the
    book and today in a year that is not a leap year, the query raises
    [ValueError] and reports nobody, although the birthday of another
    contact lies two days ahead; the [birthdays] handler then answers
    with the message for a wrong argument count. *)
Theorem get_upcoming_birthdays_leap_day (pf : Platform) :
  let today := mkdate 2023 6 10 in
  let ann := mkRecord (mkName "Ann") [mkPhone "0671234567"]
                      (Some (mkBirthday (mkdate 1990 6 12))) in
  contact leap_book "Ann" ann
  ∧ next_occurrence (mkdate 1990 6 12) today = mkdate 2023 6 12
  ∧ in_window (mkdate 1990 6 12) today
  ∧ AddressBook.get_upcoming_birthdays today leap_book
    = (err ValueError "day is out of range for month", leap_book)
  ∧ input_error (birthdays today) [] leap_book
    = ("Give me name and phone please.", leap_book).
Proof.
  intros today ann. split; [|split; [|split; [|split]]].
  - exists 1. split; reflexivity.
  - reflexivity.
  - vm_compute. split; discriminate.
  - reflexivity.
  - reflexivity.
Qed.

(** * Further properties of the program *)

(** ** Trimming *)

Lemma rstrip_cons c s :
  rstrip (String c s)
  = match rstrip s with
    | "" => if is_space c then "" else String c ""
    | r => String c r
    end.
Proof. reflexivity. Qed.

Lemma rstrip_idem s : rstrip (rstrip s) = rstrip s.
Proof.
  induction s as [|c s IH]; [done|]. rewrite rstrip_cons.
  destruct (rstrip s) as [|c1 r1] eqn:Hr.
  - destruct (is_space c) eqn:Hc; [done|]. rewrite rstrip_cons. simpl.
    by rewrite Hc.
  - rewrite rstrip_cons. by rewrite IH.
Qed.

Lemma lstrip_rstrip_lstrip s : lstrip (rstrip (lstrip s)) = rstrip (lstrip s).
Proof.
  destruct (rstrip (lstrip s)) as [|c t] eqn:Hr; [done|].
  pose proof (strip_head s c t Hr) as Hc. simpl. by rewrite Hc.
Qed.

Lemma strip_idem s : strip (strip s) = strip s.
Proof. unfold strip. by rewrite lstrip_rstrip_lstrip, rstrip_idem. Qed.

(** ** Name *)

(** X1. [Name(value)] stores the trimmed text and raises [ValueError] exactly
    when nothing is left after trimming; a stored name is not empty and is
    itself trimmed, so that building a name from it gives the same name. *)
Theorem Name_init_spec (value : string) :
  (strip value ≠ "" → Name_init value = ok (mkName (strip value)))
  ∧ (strip value = "" → Name_init value = err ValueError "Name cannot be empty.")
  ∧ (∀ n, Name_init value = ok n →
          name_value n = strip value ∧ name_value n ≠ ""
          ∧ Name_init (name_value n) = ok n).
Proof.
  unfold Name_init. split; [|split].
  - by destruct (strip value).
  - by intros ->.
  - intros n. destruct (strip value) as [|c t] eqn:Hs; [done|].
    intros [= <-]. cbn [name_value]. split; [done|]. split; [done|].
    rewrite <- Hs, strip_idem. by rewrite Hs.
Qed.

Lemma Name_init_spec_witness :
  Name_init "  John Smith " = ok (mkName "John Smith")
  ∧ Name_init "John Smith" = ok (mkName "John Smith").
Proof.
  split.
  - apply (proj1 (Name_init_spec "  John Smith ")). vm_compute. discriminate.
  - apply (proj2 (proj2 (Name_init_spec "  John Smith ")) (mkName "John Smith")).
    reflexivity.
Defined.

(** ** Record: phones *)

Lemma find_phone_loop_In t l :
  In (mkPhone t) l → find_phone_loop t l = Some (mkPhone t).
Proof.
  induction l as [|[v] l IH]; [done|]. simpl.
  destruct (decide (v = t)) as [-> | Hne]; [done|].
  intros [[= Hv] | Hin]; [done | auto].
Qed.

Lemma find_phone_loop_not_In t l :
  ¬ In (mkPhone t) l → find_phone_loop t l = None.
Proof.
  induction l as [|[v] l IH]; [done|]. simpl. intros Hno.
  destruct (decide (v = t)) as [-> | Hne]; [exfalso; auto|]. auto.
Qed.

Lemma find_phone_loop_app_ne t l p :
  phone_value p ≠ t → find_phone_loop t (l ++ [p]) = find_phone_loop t l.
Proof.
  intros Hne. induction l as [|q l IH]; simpl.
  - by rewrite decide_False.
  - by destruct (decide (phone_value q = t)).
Qed.

(** The first phone equal to [t], if any, splits the list. *)
Lemma first_match t (l : list Phone) :
  Forall (λ q, phone_value q ≠ t) l
  ∨ ∃ pre ph post, l = (pre ++ ph :: post)%list
                   ∧ Forall (λ q, phone_value q ≠ t) pre ∧ phone_value ph = t.
Proof.
  induction l as [|q l IH]; [by left|].
  destruct (decide (phone_value q = t)) as [Hq | Hq].
  - right. by exists [], q, l.
  - destruct IH as [Hall | (pre & ph & post & -> & Hpre & Hph)].
    + left. by constructor.
    + right. exists (q :: pre), ph, post. split; [done|]. split; [by constructor | done].
Qed.

Lemma Forall_not_In t (l : list Phone) :
  Forall (λ q, phone_value q ≠ t) l ↔ ¬ In (mkPhone t) l.
Proof.
  rewrite List.Forall_forall. split.
  - intros Hall Hin. by apply (Hall _ Hin).
  - intros Hno [v] Hin Hv. simpl in Hv. subst v. auto.
Qed.

(** X2. [find_phone] never raises and never changes the record: it returns
    the phone with the given text when the record holds one, and [None]
    otherwise. *)
Theorem find_phone_spec (self : Record_) (t : string) :
  (In (mkPhone t) (phones self) →
     find_phone t self = (ok (Some (mkPhone t)), self))
  ∧ (¬ In (mkPhone t) (phones self) → find_phone t self = (ok None, self)).
Proof.
  unfold find_phone. rewrite (bind_ok get _ self self self eq_refl). split.
  - intros Hin. unfold ret, ok. by rewrite find_phone_loop_In.
  - intros Hno. unfold ret, ok. by rewrite find_phone_loop_not_In.
Qed.

Lemma find_phone_spec_witness :
  let john := mkRecord (mkName "John")
                       [mkPhone "1234567890"; mkPhone "5555555555"] None in
  find_phone "5555555555" john = (ok (Some (mkPhone "5555555555")), john)
  ∧ find_phone " 5555555555" john = (ok None, john).
Proof.
  intros john. split.
  - apply (proj1 (find_phone_spec john "5555555555")). right. left. reflexivity.
  - apply (proj2 (find_phone_spec john " 5555555555")).
    intros [[=] | [[=] | []]].
Defined.

Lemma add_phone_cases s self :
  add_phone s self
  = match Phone_init s with
    | inr p => (ok tt, mkRecord (name self) (phones self ++ [p])%list (birthday self))
    | inl e => (inl e, self)
    end.
Proof. unfold add_phone, bind, lift, modify, set_phones. by destruct (Phone_init s). Qed.

(** X3. [add_phone] appends the validated phone after the phones already
    there, duplicates included, and then [find_phone] finds it under its
    trimmed text and finds every other text as before; when [Phone]
    rejects the text, [add_phone] raises that error, a [ValueError], and
    leaves the record unchanged. *)
Theorem add_phone_spec (self : Record_) (s : string) :
  (ten_digits (strip s) →
     ∃ self',
       add_phone s self = (ok tt, self')
       ∧ name self' = name self ∧ birthday self' = birthday self
       ∧ phones self' = (phones self ++ [mkPhone (strip s)])%list
       ∧ find_phone (strip s) self' = (ok (Some (mkPhone (strip s))), self')
       ∧ ∀ t, t ≠ strip s → (find_phone t self').1 = (find_phone t self).1)
  ∧ (∀ e, Phone_init s = inl e →
          exn_cls e = ValueError ∧ add_phone s self = (inl e, self)).
Proof.
  rewrite add_phone_cases. split.
  - intros Hten. rewrite (Phone_init_valid s Hten). eexists. split; [reflexivity|].
    split; [done|]. split; [done|]. split; [done|]. split.
    + unfold find_phone, bind, get, ret, ok. cbn [phones].
      rewrite find_phone_loop_In; [done|]. apply in_or_app. right. by left.
    + intros t Ht. unfold find_phone, bind, get, ret. cbn [phones fst].
      rewrite find_phone_loop_app_ne; [done|]. simpl. congruence.
  - intros e He. rewrite He. split; [|done]. by rewrite (Phone_init_err _ _ He).
Qed.

Lemma add_phone_spec_witness :
  let john := mkRecord (mkName "John") [mkPhone "1234567890"] None in
  (∃ self', add_phone " 1234567890 " john = (ok tt, self')
            ∧ phones self' = [mkPhone "1234567890"; mkPhone "1234567890"])
  ∧ add_phone "12345" john
    = (err ValueError "Phone must contain exactly 10 digits.", john).
Proof.
  intros john. split.
  - destruct (proj1 (add_phone_spec john " 1234567890 "))
      as (self' & Hrun & _ & _ & Hphones & _).
    { apply ten_digitsb_spec. reflexivity. }
    exists self'. split; [exact Hrun | exact Hphones].
  - apply (proj2 (add_phone_spec john "12345")
             (Exn ValueError "Phone must contain exactly 10 digits.")).
    reflexivity.
Defined.

Lemma remove_phone_loop_absent t rest i self :
  Forall (λ q, phone_value q ≠ t) rest →
  remove_phone_loop t i rest self = (inl (not_found_phone t self), self).
Proof.
  intros Hall. revert i. induction Hall as [|q rest Hq _ IH]; intros i; simpl.
  - reflexivity.
  - destruct (decide (phone_value q = t)); [done | apply IH].
Qed.

Lemma remove_phone_loop_present t pre ph post seen self :
  phones self = (seen ++ pre ++ ph :: post)%list →
  Forall (λ q, phone_value q ≠ t) pre →
  phone_value ph = t →
  remove_phone_loop t (length seen) (pre ++ ph :: post)%list self
  = (ok tt, mkRecord (name self) (seen ++ pre ++ post)%list (birthday self)).
Proof.
  intros Hself Hpre Hph. revert seen Hself.
  induction Hpre as [|q pre Hq _ IH]; intros seen Hself; simpl.
  - rewrite decide_True by done. unfold modify, set_phones, ok.
    rewrite Hself. cbn [app]. by rewrite delete_middle.
  - rewrite decide_False by done.
    replace (S (length seen)) with (length (seen ++ [q])%list)
      by (rewrite length_app; simpl; lia).
    rewrite (IH (seen ++ [q])%list).
    + by rewrite <- app_assoc.
    + by rewrite <- app_assoc.
Qed.

(** X4. [remove_phone] deletes the first phone equal to the text and keeps
    the others in their order; when no phone equals the text it raises
    [ValueError] and the record is unchanged. *)
Theorem remove_phone_spec (self : Record_) (t : string) :
  (Forall (λ q, phone_value q ≠ t) (phones self) →
     remove_phone t self = (inl (not_found_phone t self), self))
  ∧ (∀ pre ph post,
       phones self = (pre ++ ph :: post)%list →
       Forall (λ q, phone_value q ≠ t) pre →
       phone_value ph = t →
       remove_phone t self
       = (ok tt, mkRecord (name self) (pre ++ post)%list (birthday self))).
Proof.
  unfold remove_phone. rewrite (bind_ok get _ self self self eq_refl). split.
  - apply remove_phone_loop_absent.
  - intros pre ph post Hself Hpre Hph. rewrite Hself.
    by apply (remove_phone_loop_present t pre ph post []).
Qed.

Lemma remove_phone_spec_witness :
  let john := mkRecord (mkName "John")
                [mkPhone "1234567890"; mkPhone "5555555555"; mkPhone "1234567890"]
                None in
  remove_phone "1234567890" john
  = (ok tt, mkRecord (mkName "John")
                     [mkPhone "5555555555"; mkPhone "1234567890"] None)
  ∧ remove_phone "0000000000" john = (inl (not_found_phone "0000000000" john), john).
Proof.
  intros john. split.
  - apply (proj2 (remove_phone_spec john "1234567890") []
             (mkPhone "1234567890") [mkPhone "5555555555"; mkPhone "1234567890"]);
      [reflexivity | constructor | reflexivity].
  - apply (proj1 (remove_phone_spec john "0000000000")).
    repeat constructor; simpl; discriminate.
Defined.

(** X5. Adding a phone that the record does not hold and removing it again
    gives the record back. *)
Theorem add_then_remove_phone (self : Record_) (s : string) :
  ten_digits (strip s) →
  ¬ In (mkPhone (strip s)) (phones self) →
  bind (add_phone s) (λ _, remove_phone (strip s)) self = (ok tt, self).
Proof.
  intros Hten Hnew. unfold bind. rewrite add_phone_cases, (Phone_init_valid s Hten).
  unfold ok. unfold remove_phone. erewrite bind_ok by reflexivity. cbn [phones].
  set (self' := mkRecord (name self) (phones self ++ [mkPhone (strip s)])%list
                         (birthday self)).
  assert (remove_phone_loop (strip s) 0 (phones self ++ [mkPhone (strip s)])%list self'
          = (ok tt, mkRecord (name self') ([] ++ phones self ++ [])%list
                             (birthday self'))) as ->.
  { apply (remove_phone_loop_present (strip s) (phones self) (mkPhone (strip s))
             [] [] self' eq_refl); [by apply Forall_not_In | done]. }
  cbn [name birthday app self']. rewrite app_nil_r. by destruct self.
Qed.

Lemma add_then_remove_phone_witness :
  let john := mkRecord (mkName "John") [mkPhone "1234567890"] None in
  bind (add_phone "5555555555 ") (λ _, remove_phone "5555555555") john
  = (ok tt, john).
Proof.
  intros john. apply (add_then_remove_phone john "5555555555 ").
  - apply ten_digitsb_spec. reflexivity.
  - intros [[=] | []].
Defined.

(** X6. After a successful [edit_phone] the new text is one that [Phone]
    accepts, the record has as many phones as before, the same name and
    birthday, and [find_phone] finds the new phone under its trimmed
    text. *)
Theorem edit_phone_then_find (self self' : Record_) (old_text new_text : string) :
  edit_phone old_text new_text self = (ok tt, self') →
  Phone_init new_text = ok (mkPhone (strip new_text))
  ∧ name self' = name self ∧ birthday self' = birthday self
  ∧ length (phones self') = length (phones self)
  ∧ find_phone (strip new_text) self' = (ok (Some (mkPhone (strip new_text))), self').
Proof.
  unfold edit_phone. rewrite (bind_ok get _ self self self eq_refl).
  destruct (first_match old_text (phones self))
    as [Habsent | (pre & ph & post & Hself & Hpre & Hph)].
  - by rewrite (edit_phone_loop_absent _ _ _ _ _ Habsent).
  - rewrite Hself at 1.
    rewrite (edit_phone_loop_present _ _ pre ph post [] self Hself Hpre Hph).
    destruct (Phone_init new_text) as [e | p] eqn:Hp; [done|].
    apply Phone_init_ok in Hp as ->. intros [= <-]. cbn [name birthday phones app].
    split; [done|]. split; [done|]. split; [done|]. split.
    + rewrite Hself, !length_app. reflexivity.
    + unfold find_phone, bind, get, ret, ok. cbn [phones].
      rewrite find_phone_loop_In; [done|]. apply in_or_app. right. by left.
Qed.

Lemma edit_phone_then_find_witness :
  let john := mkRecord (mkName "John")
                       [mkPhone "1234567890"; mkPhone "5555555555"] None in
  let john' := mkRecord (mkName "John")
                        [mkPhone "1112223333"; mkPhone "5555555555"] None in
  find_phone "1112223333" john' = (ok (Some (mkPhone "1112223333")), john').
Proof.
  intros john john'.
  apply (edit_phone_then_find john john' "1234567890" " 1112223333").
  reflexivity.
Defined.

(** ** Record: the birthday *)

(** X7. [edit_birthday] sets the birthday when the trimmed text writes a
    date; when [Birthday] rejects the text it raises that error, a
    [ValueError], and the record keeps the birthday it had, with its name
    and phones; this is the case of every trimmed text of ASCII characters
    that does not write a date. *)
Theorem edit_birthday_spec (self : Record_) (s : string) :
  (∀ d, D_M_YYYY (strip s) d →
        edit_birthday s self
        = (ok tt, mkRecord (name self) (phones self) (Some (mkBirthday d))))
  ∧ (∀ e, Birthday_init s = inl e →
          exn_cls e = ValueError ∧ edit_birthday s self = (inl e, self))
  ∧ (ascii_text (strip s) → (¬ ∃ d, D_M_YYYY (strip s) d) →
       edit_birthday s self
       = (err ValueError "Birthday date must be in 'DD.MM.YYYY' format.", self)).
Proof.
  unfold edit_birthday, bind, lift, modify, set_birthday.
  rewrite Birthday_init_cases.
  pose proof (strptime_date_written (strip s)) as Hparse.
  specialize (λ d, Hparse d (strip_head s)). split; [|split].
  - intros d Hd. apply Hparse in Hd. by rewrite Hd.
  - intros e. destruct (strptime_date _ _) as [e' | d]; [|done].
    by intros [= <-].
  - intros _ Hno. destruct (strptime_date _ _) as [e | d] eqn:Hp; [done|].
    exfalso. apply Hno. exists d. by apply Hparse.
Qed.

Lemma edit_birthday_spec_witness :
  let ann := mkRecord (mkName "Ann") [] (Some (mkBirthday (mkdate 1990 6 12))) in
  edit_birthday "1990-06-13" ann
  = (err ValueError "Birthday date must be in 'DD.MM.YYYY' format.", ann).
Proof.
  intros ann. apply (proj2 (proj2 (edit_birthday_spec ann "1990-06-13"))).
  { intros c Hc. vm_compute in Hc.
    repeat (destruct Hc as [<- | Hc]; [reflexivity|]). destruct Hc. }
  intros (d & dd & mm & yyyy & Ht & Hd & _ & _ & Hwd & _).
  change (strip "1990-06-13") with "1990-06-13" in Ht.
  destruct (one_or_two dd Hwd) as [(c1 & ->) | (c1 & c2 & ->)];
    unfold dmy_text in Ht; rewrite !app_cons in Ht; discriminate.
Defined.

(** ** The dictionary, continued *)

Section DictMore.
Context {V : Type}.
Implicit Types (d : list (string * V)) (k : string).

Lemma dict_keys_cons k v d : dict_keys ((k, v) :: d) = k :: dict_keys d.
Proof. reflexivity. Qed.

Lemma dict_get_set_eq k v d : dict_get k (dict_set k v d) = Some v.
Proof.
  induction d as [|[k' v'] d IH]; simpl.
  - by rewrite decide_True.
  - destruct (decide (k' = k)); simpl; [by rewrite decide_True|].
    by rewrite decide_False.
Qed.

Lemma dict_get_set_ne k k0 v d :
  k0 ≠ k → dict_get k0 (dict_set k v d) = dict_get k0 d.
Proof.
  intros Hne. induction d as [|[k' v'] d IH]; simpl.
  - by rewrite decide_False.
  - destruct (decide (k' = k)) as [-> |]; simpl.
    + by rewrite !decide_False.
    + by destruct (decide (k' = k0)).
Qed.

Lemma dict_get_del_ne k k0 d : k0 ≠ k → dict_get k0 (dict_del k d) = dict_get k0 d.
Proof.
  intros Hne. induction d as [|[k' v'] d IH]; [done|]. rewrite dict_del_cons.
  simpl. destruct (decide (k' = k)) as [-> |]; simpl.
  - by rewrite decide_False.
  - by destruct (decide (k' = k0)).
Qed.

Lemma dict_keys_set k v d :
  dict_keys (dict_set k v d)
  = match dict_get k d with
    | Some _ => dict_keys d
    | None => (dict_keys d ++ [k])%list
    end.
Proof.
  induction d as [|[k' v'] d IH]; [done|]. cbn [dict_set dict_get].
  destruct (decide (k' = k)) as [-> |]; [done|]. rewrite !dict_keys_cons, IH.
  by destruct (dict_get k d).
Qed.

Lemma dict_keys_del k d :
  dict_keys (dict_del k d) = filter (λ k', k' ≠ k) (dict_keys d).
Proof.
  induction d as [|[k' v'] d IH]; [done|].
  rewrite dict_del_cons, dict_keys_cons, filter_cons.
  destruct (decide (k' = k)), (decide (k' ≠ k)); try done.
  by rewrite dict_keys_cons, IH.
Qed.

Lemma dict_get_None_keys k d : dict_get k d = None ↔ ¬ In k (dict_keys d).
Proof.
  induction d as [|[k' v'] d IH]; [simpl; tauto|].
  rewrite dict_keys_cons. simpl.
  destruct (decide (k' = k)); [|tauto]. split; [done | tauto].
Qed.

Lemma dict_del_set_new k v d : dict_get k d = None → dict_del k (dict_set k v d) = d.
Proof.
  induction d as [|[k' v'] d IH]; simpl.
  - intros _. rewrite dict_del_cons. by rewrite decide_True.
  - destruct (decide (k' = k)); [done|]. intros Hd.
    rewrite dict_del_cons, decide_False by done. by rewrite IH.
Qed.

Lemma dict_set_NoDup k v d : NoDup (dict_keys d) → NoDup (dict_keys (dict_set k v d)).
Proof.
  intros Hd. rewrite dict_keys_set. destruct (dict_get k d) eqn:Hk; [done|].
  apply NoDup_app. split; [done|]. split; [|apply NoDup_singleton].
  intros k' Hin ->%list_elem_of_singleton.
  apply dict_get_None_keys in Hk. apply Hk. by apply list_elem_of_In.
Qed.

Lemma dict_del_NoDup k d : NoDup (dict_keys d) → NoDup (dict_keys (dict_del k d)).
Proof. intros Hd. rewrite dict_keys_del. by apply NoDup_filter. Qed.
End DictMore.

(** ** AddressBook: [add_record], [find], [delete] *)

(** X8. [add_record] stores the record under its name and touches no
    record: [find] then returns it under that name and answers as before
    under every other name; a name already present keeps its place in the
    order of the book (the new record replaces the old one), a new name goes
    to the end. *)
Theorem add_record_spec (st : State) (l : loc) (r : Record_) :
  heap st !! l = Some r →
  ∃ st',
    AddressBook.add_record l st = (ok tt, st')
    ∧ heap st' = heap st
    ∧ AddressBook.find (name_value (name r)) st' = (ok (Some l), st')
    ∧ (∀ nm, nm ≠ name_value (name r) →
             (AddressBook.find nm st').1 = (AddressBook.find nm st).1)
    ∧ dict_keys (data st')
      = match dict_get (name_value (name r)) (data st) with
        | Some _ => dict_keys (data st)
        | None => (dict_keys (data st) ++ [name_value (name r)])%list
        end.
Proof.
  intros Hl. eexists.
  cbv [AddressBook.add_record AddressBook.find bind deref modify set_data get ret ok].
  rewrite Hl. split; [reflexivity|]. cbn [heap data fst].
  split; [done|]. split; [by rewrite dict_get_set_eq|].
  split; [intros nm Hne; by rewrite dict_get_set_ne | apply dict_keys_set].
Qed.

Lemma add_record_spec_witness :
  let st := mkState [mkRecord (mkName "Jane") [] None;
                     mkRecord (mkName "Bob") [] None;
                     mkRecord (mkName "Jane") [mkPhone "9876543210"] None]
                    [("Jane", 0); ("Bob", 1)] in
  ∃ st', AddressBook.add_record 2 st = (ok tt, st')
         ∧ AddressBook.find "Jane" st' = (ok (Some 2), st')
         ∧ dict_keys (data st') = ["Jane"; "Bob"].
Proof.
  intros st.
  destruct (add_record_spec st 2 (mkRecord (mkName "Jane") [mkPhone "9876543210"] None)
              eq_refl) as (st' & Hrun & _ & Hfind & _ & Hkeys).
  exists st'. split; [exact Hrun|]. split; [exact Hfind | exact Hkeys].
Defined.

(** X9. [delete] touches no record and no other entry: [find] answers as
    before under every other name, and the remaining names keep their
    order. *)
Theorem delete_frame (st : State) (nm : string) :
  let st' := (AddressBook.delete nm st).2 in
  heap st' = heap st
  ∧ (∀ nm', nm' ≠ nm → (AddressBook.find nm' st').1 = (AddressBook.find nm' st).1)
  ∧ dict_keys (data st') = filter (λ k, k ≠ nm) (dict_keys (data st)).
Proof.
  cbv [AddressBook.delete AddressBook.find bind get modify set_data ret ok].
  destruct (dict_get nm (data st)) as [l|] eqn:Hget; cbn [snd fst heap data].
  - split; [done|]. split; [|apply dict_keys_del].
    intros nm' Hne. by rewrite dict_get_del_ne.
  - split; [done|]. split; [done|].
    rewrite <- dict_keys_del. by rewrite dict_del_absent.
Qed.

(** X10. Adding a record under a name the book does not hold and deleting
    that name gives the book back. *)
Theorem add_record_then_delete (st : State) (l : loc) (r : Record_) :
  heap st !! l = Some r →
  (AddressBook.find (name_value (name r)) st).1 = ok None →
  bind (AddressBook.add_record l)
       (λ _, AddressBook.delete (name_value (name r))) st
  = (ok true, st).
Proof.
  intros Hl.
  cbv [AddressBook.add_record AddressBook.delete AddressBook.find bind deref
       modify set_data get ret ok].
  rewrite Hl. cbn [fst data heap]. intros [= Hnew].
  rewrite dict_get_set_eq. cbn [data heap]. rewrite dict_del_set_new by done.
  by destruct st.
Qed.

Lemma add_record_then_delete_witness :
  let st := mkState [mkRecord (mkName "Jane") [] None;
                     mkRecord (mkName "Bob") [] None] [("Jane", 0)] in
  bind (AddressBook.add_record 1) (λ _, AddressBook.delete "Bob") st = (ok true, st).
Proof.
  intros st.
  apply (add_record_then_delete st 1 (mkRecord (mkName "Bob") [] None));
    reflexivity.
Defined.

(** ** Names are unique in the book *)

Lemma at_data {A} l (m : M Record_ A) st : data (at_ l m st).2 = data st.
Proof. unfold at_. destruct (heap st !! l); [|done]. by destruct (m r). Qed.

Lemma unique_keys_exec o st :
  NoDup (dict_keys (data st)) → NoDup (dict_keys (data (exec o st))).
Proof.
  intros Hst. destruct o; cbn [exec]; rewrite ?at_data; try done.
  - unfold new_Record. by destruct (Record_init nm).
  - cbv [AddressBook.add_record bind deref modify set_data ok].
    destruct (heap st !! l); [|done]. simpl. by apply dict_set_NoDup.
  - cbv [AddressBook.delete bind get modify set_data ret].
    destruct (dict_get nm (data st)); [|done]. simpl. by apply dict_del_NoDup.
Qed.

(** X11. In every state reached from the empty book by record creations,
    [add_record], [delete] and the record mutations, no name occurs twice
    among the keys of the book. *)
Theorem reachable_unique_keys (st : State) :
  reachable st → NoDup (dict_keys (data st)).
Proof.
  induction 1 as [|o st _ IH]; [constructor | by apply unique_keys_exec].
Qed.

Lemma reachable_unique_keys_witness :
  let st := foldl (λ s o, exec o s) empty_state
              [NewRecord "John"; AddRecord 0; NewRecord "John"; AddRecord 1;
               NewRecord "Jane"; AddRecord 2] in
  data st = [("John", 1); ("Jane", 2)] ∧ NoDup (dict_keys (data st)).
Proof.
  intros st. split; [reflexivity|].
  apply reachable_unique_keys. repeat apply reachable_step. apply reachable_empty.
Defined.

(** ** The query, continued *)

Lemma upcoming_names_witness :
  let today := mkdate 2024 6 10 in
  map entry_name [mkEntry "Ann" "2024-06-12"; mkEntry "Bob" "2024-06-17"]
  = map (λ r, name_value (name r)) (List.filter (due today) (records_of june_book)).
Proof.
  intros today.
  apply (@upcoming_names glibc today june_book june_book
           [mkEntry "Ann" "2024-06-12"; mkEntry "Bob" "2024-06-17"]).
  reflexivity.
Defined.

Lemma get_upcoming_birthdays_returns_witness :
  ∃ out, @AddressBook.get_upcoming_birthdays glibc (mkdate 2024 6 10) june_book
         = (ok out, june_book).
Proof.
  apply (@get_upcoming_birthdays_returns glibc (mkdate 2024 6 10) june_book).
  - simpl. lia.
  - intros l Hl. vm_compute in Hl.
    destruct Hl as [<- | [<- | [<- | []]]]; eexists; (split; [reflexivity|]);
      intros b [= <-]; (split; [vm_compute; repeat split; discriminate|]);
      simpl; intros [? _]; discriminate.
Defined.

Section Workday.
Context `{Platform}.
Local Open Scope Z_scope.

(** X14. Every date the query reports is a working day, Monday to Friday,
    not before today and at most nine days after today. *)
Theorem congratulation_on_workday (today : date) (st st' : State)
        (out : list upcoming_entry) (e : upcoming_entry) :
  AddressBook.get_upcoming_birthdays today st = (ok out, st') →
  In e out →
  ∃ cd, entry_birthday e = strftime cd "%Y-%m-%d"
        ∧ date_ok cd ∧ weekday cd < 5 ∧ 0 <= days_between cd today <= 9.
Proof.
  intros Hrun Hin. unfold AddressBook.get_upcoming_birthdays in Hrun.
  rewrite (bind_ok get _ st st st eq_refl) in Hrun.
  destruct (upcoming_loop_In _ _ _ _ _ _ _ Hrun Hin)
    as [[] | (l & r & b & Hl & Hr & Hb & Hstep)].
  apply upcoming_step_some in Hstep
    as (Hocc & Hwin & cd & Hcd & Hord & Hweek & ->).
  exists cd. split; [done|]. split; [done|].
  set (occ := next_occurrence (birthday_value b) today) in *.
  pose proof (weekday_range occ) as Hrange.
  unfold in_window in Hwin. fold occ in Hwin. unfold days_between in *.
  revert Hord. destruct (Z.leb_spec 5 (weekday occ)) as [Hwd | Hwd]; intros Hord.
  - rewrite (weekday_add occ cd (7 - weekday occ) Hord).
    replace (weekday occ + (7 - weekday occ)) with 7 by lia.
    change (7 mod 7) with 0. lia.
  - rewrite (Hweek Hwd). lia.
Qed.

Lemma upcoming_step_err today r b e :
  AddressBook.upcoming_step today r b = inl e → exn_cls e = ValueError.
Proof.
  unfold AddressBook.upcoming_step, replace_year.
  destruct (date_init (year today) _ _) as [e1 | d1] eqn:E1;
    [intros [= <-]; by apply date_init_err in E1|].
  apply date_init_ok in E1 as [-> Hcal1]. cbn [year month day].
  destruct (date_ltb _ today);
    [ destruct (date_init (year today + 1) _ _) as [e2 | d2] eqn:E2;
      [intros [= <-]; by apply date_init_err in E2|];
      apply date_init_ok in E2 as [-> Hcal2] | ];
    unfold ok;
    match goal with
    | |- context [days_between ?o today] => set (occ := o) in *
    end;
    (destruct ((0 <=? days_between occ today) && (days_between occ today <=? 7));
     [|done]);
    (destruct (Z.leb_spec 5 (weekday occ)) as [Hwd | Hwd]; [|done]);
    (destruct (add_days_weekend occ ltac:(done) Hwd) as (cd & ->)); done.
Qed.

Lemma upcoming_step_leap_day today r b :
  month (birthday_value b) = 2 → day (birthday_value b) = 29 →
  _is_leap (year today) = false →
  ∃ e, AddressBook.upcoming_step today r b = inl e.
Proof.
  intros Hm Hd Hleap. unfold AddressBook.upcoming_step, replace_year, date_init.
  rewrite Hm, Hd. unfold _days_in_month. rewrite Hleap.
  destruct (negb _); [by eexists|].
  change (negb ((1 <=? 2) && (2 <=? 12))) with false. cbv iota.
  change (negb ((1 <=? 29) && (29 <=? (if (2 =? 2) && false then 29
                                        else table _DAYS_IN_MONTH 2))))
    with true.
  by eexists.
Qed.

Lemma upcoming_loop_raises today records upcoming st l r b e0 :
  (∀ l', In l' records → is_Some (heap st !! l')) →
  In l records → heap st !! l = Some r → birthday r = Some b →
  AddressBook.upcoming_step today r b = inl e0 →
  ∃ e, AddressBook.upcoming_loop today records upcoming st = (inl e, st)
       ∧ exn_cls e = ValueError.
Proof.
  intros Halloc Hin Hr Hb Hstep. revert upcoming.
  induction records as [|l0 rest IH]; intros upcoming; [done|].
  rewrite upcoming_loop_cons.
  destruct (Halloc l0 ltac:(by left)) as [r0 Hr0]. rewrite Hr0.
  assert (l0 ≠ l → ∀ acc, ∃ e,
            AddressBook.upcoming_loop today rest acc st = (inl e, st)
            ∧ exn_cls e = ValueError) as Hrest.
  { intros Hne. apply IH.
    - intros l' Hl'. apply Halloc. by right.
    - destruct Hin as [-> | Hin]; done. }
  destruct (decide (l0 = l)) as [-> | Hne].
  - rewrite Hr in Hr0. injection Hr0 as <-. rewrite Hb, Hstep.
    exists e0. split; [done|]. by apply (upcoming_step_err today r b).
  - destruct (birthday r0) as [b0|]; [|by apply Hrest].
    destruct (AddressBook.upcoming_step today r0 b0) as [e1 | [entry|]] eqn:Hs;
      [|by apply Hrest..].
    exists e1. split; [done|]. by apply (upcoming_step_err today r0 b0).
Qed.

(** X15. Whenever the book holds a birthday on a 29th of February and the
    current year is not a leap year, the query raises [ValueError] whatever
    the other contacts are, and the [birthdays] command answers with the
    message for missing arguments instead of a list. *)
Theorem leap_day_raises (today : date) (st : State) (l : loc) (r : Record_)
        (b : Birthday) :
  (∀ l', In l' (dict_values (data st)) → is_Some (heap st !! l')) →
  In l (dict_values (data st)) → heap st !! l = Some r → birthday r = Some b →
  month (birthday_value b) = 2 → day (birthday_value b) = 29 →
  _is_leap (year today) = false →
  (∃ e, AddressBook.get_upcoming_birthdays today st = (inl e, st)
        ∧ exn_cls e = ValueError)
  ∧ input_error (birthdays today) [] st = ("Give me name and phone please.", st).
Proof.
  intros Halloc Hin Hr Hb Hm Hd Hleap.
  destruct (upcoming_step_leap_day today r b Hm Hd Hleap) as (e0 & Hstep).
  destruct (upcoming_loop_raises today _ [] st l r b e0 Halloc Hin Hr Hb Hstep)
    as (e & Hrun & He).
  assert (AddressBook.get_upcoming_birthdays today st = (inl e, st)) as Hq.
  { unfold AddressBook.get_upcoming_birthdays.
    by rewrite (bind_ok get _ st st st eq_refl). }
  split; [by exists e|].
  unfold input_error, birthdays. rewrite (bind_err _ _ _ _ _ Hq). by rewrite He.
Qed.
End Workday.

Lemma congratulation_on_workday_witness :
  ∃ cd, "2024-06-17" = @strftime glibc cd "%Y-%m-%d"
        ∧ date_ok cd ∧ (weekday cd < 5)%Z
        ∧ (0 <= days_between cd (mkdate 2024 6 10) <= 9)%Z.
Proof.
  apply (@congratulation_on_workday glibc (mkdate 2024 6 10) june_book june_book
           [mkEntry "Ann" "2024-06-12"; mkEntry "Bob" "2024-06-17"]
           (mkEntry "Bob" "2024-06-17")).
  - reflexivity.
  - right. left. reflexivity.
Defined.

Lemma leap_day_raises_witness :
  (∃ e, @AddressBook.get_upcoming_birthdays glibc (mkdate 2023 6 10) leap_book
        = (inl e, leap_book) ∧ exn_cls e = ValueError)
  ∧ input_error (@birthdays glibc (mkdate 2023 6 10)) [] leap_book
    = ("Give me name and phone please.", leap_book).
Proof.
  apply (@leap_day_raises glibc (mkdate 2023 6 10) leap_book 0
           (mkRecord (mkName "Leap") [mkPhone "0501234567"]
                     (Some (mkBirthday (mkdate 2000 2 29))))
           (mkBirthday (mkdate 2000 2 29))); try reflexivity.
  - intros l' Hl'. vm_compute in Hl'. destruct Hl' as [<- | [<- | []]]; by eexists.
  - left. reflexivity.
Defined.

(** ** Handlers: what they do to the state *)

Lemma read_only_bind {A B} (m : M State A) (k : A → M State B) :
  read_only m → (∀ a, read_only (k a)) → read_only (bind m k).
Proof.
  intros Hm Hk st. unfold bind. specialize (Hm st).
  destruct (m st) as [[e | a] st1]; simpl in *; subst; [done | apply Hk].
Qed.

Lemma read_only_ret {A} (a : A) : read_only (ret a).
Proof. done. Qed.
Lemma read_only_raise {A} c msg : read_only (@raise State A c msg).
Proof. done. Qed.
Lemma read_only_lift {A} (x : result A) : read_only (lift x).
Proof. done. Qed.
Lemma read_only_get : read_only (@get State).
Proof. done. Qed.
Lemma read_only_deref l : read_only (deref l).
Proof. intros st. unfold deref. by destruct (heap st !! l). Qed.
Lemma read_only_find nm : read_only (AddressBook.find nm).
Proof. done. Qed.

Create HintDb ro.
#[local] Hint Resolve read_only_ret read_only_raise read_only_lift read_only_get
  read_only_deref read_only_find : ro.

Lemma read_only_for_each {A} (f : Record_ → A) records : read_only (for_each f records).
Proof.
  induction records as [|l rest IH]; simpl; [done|].
  apply read_only_bind; [auto with ro|]. intros r.
  apply read_only_bind; [done|]. intros xs. apply read_only_ret.
Qed.

Lemma read_only_upcoming `{Platform} today :
  read_only (AddressBook.get_upcoming_birthdays today).
Proof.
  intros st. unfold AddressBook.get_upcoming_birthdays.
  rewrite (bind_ok get _ st st st eq_refl). apply upcoming_loop_state.
Qed.

Lemma input_error_state func args st : (input_error func args st).2 = (func args st).2.
Proof. unfold input_error. by destruct (func args st) as [[e | s] st']. Qed.

Lemma show_handlers_read_only_aux `{Platform} (today : date) (args : list string)
        (st : State) :
  (input_error show_birthday args st).2 = st
  ∧ (input_error show_phone args st).2 = st
  ∧ (input_error show_all args st).2 = st
  ∧ (input_error (birthdays today) args st).2 = st.
Proof.
  rewrite !input_error_state.
  split; [|split; [|split]].
  - apply read_only_bind; [auto with ro|]. intros nm.
    apply read_only_bind; [auto with ro|]. intros [l|]; [|auto with ro].
    apply read_only_bind; auto with ro.
  - apply read_only_bind; [auto with ro|]. intros nm.
    apply read_only_bind; [auto with ro|]. intros [l|]; [|auto with ro].
    apply read_only_bind; auto with ro.
  - apply read_only_bind; [auto with ro|]. intros s.
    destruct (data s); [auto with ro|].
    apply read_only_bind; [apply read_only_for_each | auto with ro].
  - apply read_only_bind; [apply read_only_upcoming | auto with ro].
Qed.

(** X16. The commands [show-birthday], [phone], [all] and [birthdays], and
    the rendering of the book, never change the state, whatever their
    arguments and whether they succeed or answer with an error message. *)
Theorem show_handlers_read_only `{Platform} (today : date) (args : list string)
        (st : State) :
  (input_error show_birthday args st).2 = st
  ∧ (input_error show_phone args st).2 = st
  ∧ (input_error show_all args st).2 = st
  ∧ (input_error (birthdays today) args st).2 = st
  ∧ (AddressBook_str st).2 = st.
Proof.
  rewrite !input_error_state.
  split; [|split; [|split; [|split]]].
  - apply read_only_bind; [auto with ro|]. intros nm.
    apply read_only_bind; [auto with ro|]. intros [l|]; [|auto with ro].
    apply read_only_bind; auto with ro.
  - apply read_only_bind; [auto with ro|]. intros nm.
    apply read_only_bind; [auto with ro|]. intros [l|]; [|auto with ro].
    apply read_only_bind; auto with ro.
  - apply read_only_bind; [auto with ro|]. intros s.
    destruct (data s); [auto with ro|].
    apply read_only_bind; [apply read_only_for_each | auto with ro].
  - apply read_only_bind; [apply read_only_upcoming | auto with ro].
  - apply read_only_bind; [auto with ro|]. intros s.
    destruct (data s); [auto with ro|].
    apply read_only_bind; [apply read_only_for_each | auto with ro].
Qed.

Lemma steps_app ops1 ops2 st : steps (ops1 ++ ops2) st = steps ops2 (steps ops1 st).
Proof. apply foldl_app. Qed.

Lemma by_ops_read_only {A} (m : M State A) : read_only m → by_ops m.
Proof. intros Hm st. exists []. apply Hm. Qed.

Lemma by_ops_bind {A B} (m : M State A) (k : A → M State B) :
  by_ops m → (∀ a, by_ops (k a)) → by_ops (bind m k).
Proof.
  intros Hm Hk st. unfold bind. destruct (Hm st) as (ops1 & H1).
  destruct (m st) as [[e | a] st1]; simpl in *; subst; [by exists ops1|].
  destruct (Hk a (steps ops1 st)) as (ops2 & H2).
  exists (ops1 ++ ops2)%list. by rewrite steps_app.
Qed.

Lemma by_ops_exec {A} (m : M State A) (o : op) :
  (∀ st, (m st).2 = exec o st) → by_ops m.
Proof. intros Hm st. exists [o]. apply Hm. Qed.

Create HintDb ops.
#[local] Hint Resolve by_ops_read_only : ops.

Lemma by_ops_add_contact args : by_ops (add_contact args).
Proof.
  unfold add_contact.
  apply by_ops_bind; [auto with ops ro|]. intros [nm phone].
  apply by_ops_bind; [auto with ops ro|]. intros [l|].
  - apply by_ops_bind; [|auto with ops ro].
    by apply (by_ops_exec _ (AddPhone l phone)).
  - apply by_ops_bind; [by apply (by_ops_exec _ (NewRecord nm))|]. intros record.
    apply by_ops_bind; [by apply (by_ops_exec _ (AddPhone record phone))|]. intros _.
    apply by_ops_bind; [by apply (by_ops_exec _ (AddRecord record))|].
    auto with ops ro.
Qed.

Lemma by_ops_add_birthday args : by_ops (add_birthday args).
Proof.
  unfold add_birthday.
  apply by_ops_bind; [auto with ops ro|]. intros [nm bday].
  apply by_ops_bind; [auto with ops ro|]. intros [l|]; [|auto with ops ro].
  apply by_ops_bind; [|auto with ops ro].
  by apply (by_ops_exec _ (EditBirthday l bday)).
Qed.

Lemma by_ops_change_contact args : by_ops (change_contact args).
Proof.
  unfold change_contact.
  apply by_ops_bind; [auto with ops ro|]. intros [[nm old_phone] new_phone].
  apply by_ops_bind; [auto with ops ro|]. intros [l|]; [|auto with ops ro].
  apply by_ops_bind; [|auto with ops ro].
  by apply (by_ops_exec _ (EditPhone l old_phone new_phone)).
Qed.

Lemma reachable_steps ops st : reachable st → reachable (steps ops st).
Proof.
  revert st. induction ops as [|o ops IH]; intros st Hst; [done|].
  apply IH. by constructor.
Qed.

Lemma reachable_book_ok st :
  reachable st → key_is_name st ∧ NoDup (dict_keys (data st)).
Proof.
  induction 1 as [|o st _ [IH1 IH2]].
  - split; [intros k l [] | constructor].
  - split; [by apply key_is_name_exec | by apply unique_keys_exec].
Qed.

Section Sessions.
Context `{Platform}.

Lemma handler_reachable today command handler args st :
  command_handlers today command = Some handler →
  reachable st → reachable (handler args st).2.
Proof.
  unfold command_handlers. intros Hh Hst.
  repeat match type of Hh with
         | (if ?c then _ else _) = _ => destruct c
         end; try discriminate; injection Hh as <-;
    rewrite input_error_state.
  - destruct (by_ops_add_contact args st) as (ops & ->). by apply reachable_steps.
  - destruct (by_ops_change_contact args st) as (ops & ->). by apply reachable_steps.
  - by rewrite <- input_error_state, (proj1 (proj2 (show_handlers_read_only_aux today args st))).
  - by rewrite <- input_error_state, (proj1 (proj2 (proj2 (show_handlers_read_only_aux today args st)))).
  - destruct (by_ops_add_birthday args st) as (ops & ->). by apply reachable_steps.
  - by rewrite <- input_error_state, (proj1 (show_handlers_read_only_aux today args st)).
  - by rewrite <- input_error_state, (proj2 (proj2 (proj2 (show_handlers_read_only_aux today args st)))).
Qed.
End Sessions.

(** ** The program loop *)

Section Loop.
Context `{Platform}.

Lemma loop_body_stop today user_input st :
  (loop_body today user_input st).2 = exits user_input.
Proof.
  unfold loop_body, exits. destruct (parse_input user_input) as [command args].
  cbn [fst]. destruct (is_exit command); [done|].
  repeat (destruct (decide _); [done|]).
  destruct (command_handlers today command) as [handler|]; [|done].
  by destruct (handler args st).
Qed.

Lemma loop_body_exit today user_input st :
  exits user_input = true →
  loop_body today user_input st = (["Good bye!"], st, true).
Proof.
  unfold loop_body, exits. destruct (parse_input user_input) as [command args].
  cbn [fst]. by intros ->.
Qed.

Lemma loop_body_reachable today user_input st :
  reachable st → reachable (loop_body today user_input st).1.2.
Proof.
  intros Hst. unfold loop_body. destruct (parse_input user_input) as [command args].
  destruct (is_exit command); [done|].
  repeat (destruct (decide _); [done|]).
  destruct (command_handlers today command) as [handler|] eqn:Hh; [|done].
  pose proof (handler_reachable today command handler args st Hh Hst) as Hr.
  by destruct (handler args st).
Qed.

Lemma main_loop_reachable inputs st :
  reachable st → reachable (main_loop inputs st).2.
Proof.
  revert st. induction inputs as [|[today user_input] rest IH]; intros st Hst;
    [done|]. cbn [main_loop].
  pose proof (loop_body_reachable today user_input st Hst) as Hr.
  destruct (loop_body today user_input st) as [[out st1] stop]. cbn [fst snd] in Hr.
  destruct stop; [done|]. specialize (IH st1 Hr).
  by destruct (main_loop rest st1).
Qed.

(** X17. Whatever the user types, at the end of the program every key of
    the book is the name of the record stored under it, and no name occurs
    twice. *)
Theorem main_book_ok (inputs : list (date * string)) :
  key_is_name (main inputs).2 ∧ NoDup (dict_keys (data (main inputs).2)).
Proof.
  apply reachable_book_ok. unfold main.
  pose proof (main_loop_reachable inputs empty_state reachable_empty) as Hr.
  by destruct (main_loop inputs empty_state).
Qed.

(** X18. The loop ends at the first exit command: it prints "Good bye!"
    after what the lines before it printed, and the lines after it are
    neither read nor executed. *)
Theorem main_loop_exit (pre post : list (date * string)) (today : date)
        (user_input : string) (st : State) :
  Forall (λ i, exits i.2 = false) pre →
  exits user_input = true →
  main_loop (pre ++ (today, user_input) :: post) st
  = (((main_loop pre st).1 ++ ["Good bye!"])%list, (main_loop pre st).2).
Proof.
  intros Hpre Hexit. revert st.
  induction Hpre as [|[d line] pre Hline _ IH]; intros st.
  - cbn [app main_loop fst snd]. by rewrite (loop_body_exit _ _ _ Hexit).
  - cbn [app main_loop]. pose proof (loop_body_stop d line st) as Hstop.
    destruct (loop_body d line st) as [[out st1] stop]. cbn [snd] in Hstop.
    cbn [snd] in Hline. rewrite Hstop, Hline, IH.
    destruct (main_loop pre st1) as [outs st2]. cbn [fst snd].
    by rewrite app_assoc.
Qed.
End Loop.

Lemma main_loop_exit_witness :
  @main_loop glibc
    [(mkdate 2024 6 10, "add Ann 0501234567"); (mkdate 2024 6 10, "good bye");
     (mkdate 2024 6 10, "Close"); (mkdate 2024 6 10, "add Bob 0671234567")]
    empty_state
  = (["Contact 'Ann' with phone '0501234567' added.";
      "Invalid command. Type 'help' to see available commands."; "Good bye!"],
     mkState [mkRecord (mkName "Ann") [mkPhone "0501234567"] None] [("Ann", 0)]).
Proof.
  apply (@main_loop_exit glibc
           [(mkdate 2024 6 10, "add Ann 0501234567"); (mkdate 2024 6 10, "good bye")]
           [(mkdate 2024 6 10, "add Bob 0671234567")]
           (mkdate 2024 6 10) "Close" empty_state).
  - repeat constructor.
  - reflexivity.
Defined.

(** ** Handlers: answers and effects *)

Lemma at_run {A} l (m : M Record_ A) st r :
  heap st !! l = Some r →
  at_ l m st = ((m r).1, mkState (<[l := (m r).2]> (heap st)) (data st)).
Proof. intros Hl. unfold at_. rewrite Hl. by destruct (m r). Qed.

Lemma at_unchanged {A} l (m : M Record_ A) st r :
  heap st !! l = Some r → (m r).2 = r → at_ l m st = ((m r).1, st).
Proof.
  intros Hl Hm. rewrite (at_run l m st r Hl), Hm, list_insert_id by done.
  by destruct st.
Qed.

Section Answers.
Context `{Platform}.

(** X19. For a name that is not in the book, [add-birthday], [change],
    [show-birthday] and [phone] answer that the contact was not found and
    change nothing. *)
Theorem missing_contact (st : State) (nm : string) :
  (AddressBook.find nm st).1 = ok None →
  (∀ b, input_error add_birthday [nm; b] st
        = ("Contact not found. Please check the name.", st))
  ∧ (∀ o n, input_error change_contact [nm; o; n] st
            = ("Contact not found. Please check the name.", st))
  ∧ (∀ rest, input_error show_birthday (nm :: rest) st
             = ("Contact not found. Please check the name.", st))
  ∧ (∀ rest, input_error show_phone (nm :: rest) st
             = ("Contact not found. Please check the name.", st)).
Proof.
  cbv [AddressBook.find bind get ret fst]. intros [= Hnone].
  split; [|split; [|split]]; intros;
    cbv [input_error add_birthday change_contact show_birthday show_phone
         unpack2 unpack3 index0 bind lift raise get ret ok AddressBook.find];
    by rewrite Hnone.
Qed.

(** X20. With a wrong number of arguments, [add], [add-birthday] and
    [change] answer "Give me name and phone please." and [show-birthday] and
    [phone] without an argument answer "Enter user name."; the state is
    unchanged. *)
Theorem wrong_argument_count (st : State) (args : list string) :
  (length args ≠ 2 →
     input_error add_contact args st = ("Give me name and phone please.", st)
     ∧ input_error add_birthday args st = ("Give me name and phone please.", st))
  ∧ (length args ≠ 3 →
     input_error change_contact args st = ("Give me name and phone please.", st))
  ∧ input_error show_birthday [] st = ("Enter user name.", st)
  ∧ input_error show_phone [] st = ("Enter user name.", st).
Proof.
  split; [|split; [|done]].
  - intros Hlen. by destruct args as [|a [|b [|c args]]].
  - intros Hlen. by destruct args as [|a [|b [|c [|d args]]]].
Qed.
End Answers.

Lemma missing_contact_witness :
  input_error add_birthday ["Ann"; "12.06.1990"] empty_state
  = ("Contact not found. Please check the name.", empty_state).
Proof.
  apply (proj1 (@missing_contact glibc empty_state "Ann" eq_refl)).
Defined.

Lemma wrong_argument_count_witness :
  input_error add_contact ["Ann"; "0501234567"; "0671234567"] empty_state
  = ("Give me name and phone please.", empty_state)
  ∧ input_error change_contact ["Ann"; "0501234567"] empty_state
    = ("Give me name and phone please.", empty_state).
Proof.
  split.
  - apply (proj1 (@wrong_argument_count glibc empty_state
                    ["Ann"; "0501234567"; "0671234567"])). simpl. lia.
  - apply (proj1 (proj2 (@wrong_argument_count glibc empty_state
                           ["Ann"; "0501234567"]))). simpl. lia.
Defined.

Lemma add_contact_run (st : State) (nm phone : string) :
  ten_digits (strip phone) →
  ((AddressBook.find nm st).1 = ok None → strip nm ≠ "" →
     input_error add_contact [nm; phone] st
     = ("Contact '" +:+ nm +:+ "' with phone '" +:+ phone +:+ "' added.",
        mkState (heap st ++ [mkRecord (mkName (strip nm)) [mkPhone (strip phone)] None])
                (dict_set (strip nm) (length (heap st)) (data st))))
  ∧ (∀ l r, (AddressBook.find nm st).1 = ok (Some l) → heap st !! l = Some r →
       input_error add_contact [nm; phone] st
       = ("Added phone '" +:+ phone +:+ "' to existing contact '" +:+ nm +:+ "'.",
          mkState (<[l := mkRecord (name r) (phones r ++ [mkPhone (strip phone)])
                                   (birthday r)]> (heap st))
                  (data st))).
Proof.
  intros Hten. split.
  - cbv [AddressBook.find bind get ret fst]. intros [= Hnone] Hname.
    cbv [input_error add_contact unpack2 bind lift get ret ok AddressBook.find].
    rewrite Hnone. unfold new_Record, Record_init, Name_init.
    destruct (strip nm) as [|c t] eqn:Hs; [done|]. unfold ok.
    set (r0 := mkRecord (mkName (String c t)) [] None).
    rewrite (at_run _ (add_phone phone) _ r0)
      by (by apply list_lookup_middle).
    rewrite add_phone_cases, (Phone_init_valid _ Hten). cbn [fst snd heap data].
    rewrite insert_app_r_alt by done. rewrite Nat.sub_diag. cbn [insert list_insert].
    cbv [AddressBook.add_record bind deref modify set_data ok]. cbn [heap data].
    rewrite list_lookup_middle by done. reflexivity.
  - intros l r. cbv [AddressBook.find bind get ret fst]. intros [= Hl] Hr.
    cbv [input_error add_contact unpack2 bind lift get ret ok AddressBook.find].
    rewrite Hl, (at_run _ (add_phone phone) _ r Hr).
    by rewrite add_phone_cases, (Phone_init_valid _ Hten).
Qed.

(** X21. [add] with a valid phone: for a name that [find] does not know it
    creates a record with the trimmed name and that phone alone and stores
    it under its name; for a known contact it appends the phone to the
    record; no other record changes. *)
Theorem add_contact_valid (st : State) (nm phone : string) :
  ten_digits (strip phone) →
  ((AddressBook.find nm st).1 = ok None → strip nm ≠ "" →
     input_error add_contact [nm; phone] st
     = ("Contact '" +:+ nm +:+ "' with phone '" +:+ phone +:+ "' added.",
        mkState (heap st ++ [mkRecord (mkName (strip nm)) [mkPhone (strip phone)] None])
                (dict_set (strip nm) (length (heap st)) (data st))))
  ∧ (∀ l r, (AddressBook.find nm st).1 = ok (Some l) → heap st !! l = Some r →
       input_error add_contact [nm; phone] st
       = ("Added phone '" +:+ phone +:+ "' to existing contact '" +:+ nm +:+ "'.",
          mkState (<[l := mkRecord (name r) (phones r ++ [mkPhone (strip phone)])
                                   (birthday r)]> (heap st))
                  (data st))).
Proof. apply add_contact_run. Qed.

Lemma add_contact_valid_witness :
  input_error add_contact [" Ann"; "0501234567"] empty_state
  = ("Contact ' Ann' with phone '0501234567' added.",
     mkState [mkRecord (mkName "Ann") [mkPhone "0501234567"] None] [("Ann", 0)]).
Proof.
  apply (proj1 (add_contact_valid empty_state " Ann" "0501234567"
                  ltac:(apply ten_digitsb_spec; reflexivity))).
  - reflexivity.
  - vm_compute. discriminate.
Defined.

(** X22. [add] with a phone that [Phone] rejects answers "Give me name and
    phone please."; the book keeps its entries and every record stays as it
    was. *)
Theorem add_contact_invalid_phone (st : State) (nm phone : string) (e : exn) :
  Phone_init phone = inl e →
  (∀ l, (AddressBook.find nm st).1 = ok (Some l) → is_Some (heap st !! l)) →
  (input_error add_contact [nm; phone] st).1 = "Give me name and phone please."
  ∧ data (input_error add_contact [nm; phone] st).2 = data st
  ∧ ∀ l r, heap st !! l = Some r →
           heap (input_error add_contact [nm; phone] st).2 !! l = Some r.
Proof.
  intros Hbad Halloc. revert Halloc. cbv [AddressBook.find bind get ret fst].
  intros Halloc. pose proof (Phone_init_err _ _ Hbad) as ->.
  cbv [input_error add_contact unpack2 bind lift get ret ok AddressBook.find].
  destruct (dict_get nm (data st)) as [l|] eqn:Hget.
  - destruct (Halloc l eq_refl) as [r Hr].
    rewrite (at_unchanged _ (add_phone phone) _ r Hr);
      rewrite add_phone_cases, Hbad; done.
  - unfold new_Record, Record_init, Name_init.
    destruct (strip nm) as [|c t]; [done|]. unfold ok.
    set (r0 := mkRecord (mkName (String c t)) [] None).
    rewrite (at_run _ (add_phone phone) _ r0) by (by apply list_lookup_middle).
    rewrite add_phone_cases, Hbad.
    cbn [fst snd heap data exn_cls].
    split; [done|]. split; [done|]. intros l r Hl.
    rewrite list_lookup_insert_ne.
    + by apply lookup_app_l_Some.
    + apply lookup_lt_Some in Hl. lia.
Qed.

Lemma add_contact_invalid_phone_witness :
  let st := mkState [mkRecord (mkName "Ann") [mkPhone "0501234567"] None]
                    [("Ann", 0)] in
  (input_error add_contact ["Ann"; "12345"] st).1 = "Give me name and phone please."
  ∧ data (input_error add_contact ["Bob"; "12345"] st).2 = data st.
Proof.
  intros st. split.
  - apply (add_contact_invalid_phone st "Ann" "12345"
             (Exn ValueError "Phone must contain exactly 10 digits.")).
    + reflexivity.
    + intros l [= <-]. by eexists.
  - apply (add_contact_invalid_phone st "Bob" "12345"
             (Exn ValueError "Phone must contain exactly 10 digits.")).
    + reflexivity.
    + intros l [=].
Defined.

Lemma Birthday_init_padded text d :
  DD_MM_YYYY text d → Birthday_init text = ok (mkBirthday d).
Proof.
  intros Hd. rewrite Birthday_init_cases.
  assert (strip text = text) as Hs.
  { destruct Hd as (dd & mm & yyyy & -> & Hdd & Hmm & Hyy & _).
    by apply strip_no_space, dmy_text_no_space. }
  pose proof (padded_is_written _ _ Hd) as Hd'. rewrite <- Hs in Hd'.
  apply (strptime_date_written (strip text) d (strip_head text)) in Hd'.
  by rewrite Hd'.
Qed.

Section BirthdayCommands.
Context `{Platform}.

(** X23. After [add-birthday] with a date written DD.MM.YYYY for a contact
    of the book, [show-birthday] shows that text again, provided the year
    is at least 1000 or the C library pads the year with zeros. *)
Theorem add_then_show_birthday (st : State) (nm text : string) (r : Record_)
        (d : date) :
  contact st nm r → DD_MM_YYYY text d →
  (1000 <= year d)%Z ∨ zero_pads_year = true →
  let answer := input_error add_birthday [nm; text] st in
  answer.1 = "Added birthday '" +:+ text +:+ "' to existing contact '" +:+ nm +:+ "'."
  ∧ input_error show_birthday [nm] answer.2 = (nm +:+ ": " +:+ text +:+ ".", answer.2).
Proof.
  intros (l & Hget & Hl) Hd Hyear.
  cbv [input_error add_birthday unpack2 bind lift get ret ok AddressBook.find].
  rewrite Hget, (at_run _ (edit_birthday text) _ r Hl).
  unfold edit_birthday, bind, lift, modify. rewrite (Birthday_init_padded _ _ Hd).
  unfold ok. cbn [fst snd]. split; [done|].
  cbv [show_birthday index0 bind lift get ret ok AddressBook.find deref].
  cbn [data heap]. rewrite Hget. cbn [data heap].
  rewrite list_lookup_insert_eq by (by eapply lookup_lt_Some).
  cbn [set_birthday birthday str_birthday]. by rewrite (render_written _ _ Hd Hyear).
Qed.
End BirthdayCommands.

Lemma add_then_show_birthday_witness :
  let st := mkState [mkRecord (mkName "Ann") [mkPhone "0501234567"] None]
                    [("Ann", 0)] in
  let answer := input_error add_birthday ["Ann"; "12.06.1990"] st in
  answer.1 = "Added birthday '12.06.1990' to existing contact 'Ann'."
  ∧ @input_error (@show_birthday glibc) ["Ann"] answer.2
    = ("Ann: 12.06.1990.", answer.2).
Proof.
  intros st.
  apply (@add_then_show_birthday glibc st "Ann" "12.06.1990"
           (mkRecord (mkName "Ann") [mkPhone "0501234567"] None)
           (mkdate 1990 6 12)).
  - exists 0. split; reflexivity.
  - exists "12", "06", "1990".
    split; [reflexivity|]. split; [digits_goal|]. split; [digits_goal|].
    split; [digits_goal|]. split; [reflexivity|]. split; [reflexivity|].
    split; [reflexivity|]. split; [|reflexivity].
    vm_compute. repeat split; discriminate.
  - left. simpl. lia.
Defined.

Lemma edit_phone_outcome self old_text new_text :
  (¬ In (mkPhone old_text) (phones self)
   ∧ edit_phone old_text new_text self = (inl (not_found_old old_text self), self))
  ∨ (In (mkPhone old_text) (phones self) ∧ (∃ e, Phone_init new_text = inl e)
     ∧ edit_phone old_text new_text self
       = (err ValueError "Phone must contain exactly 10 digits.", self))
  ∨ (In (mkPhone old_text) (phones self)
     ∧ Phone_init new_text = ok (mkPhone (strip new_text))
     ∧ ∃ pre ph post,
         phones self = (pre ++ ph :: post)%list
         ∧ edit_phone old_text new_text self
           = (ok tt, mkRecord (name self)
                              (pre ++ mkPhone (strip new_text) :: post)%list
                              (birthday self))).
Proof.
  unfold edit_phone. rewrite (bind_ok get _ self self self eq_refl).
  destruct (first_match old_text (phones self))
    as [Habsent | (pre & ph & post & Hself & Hpre & Hph)].
  - left. split; [by apply Forall_not_In | by apply edit_phone_loop_absent].
  - right.
    assert (In (mkPhone old_text) (phones self)) as Hin.
    { rewrite Hself. apply in_or_app. right. left. destruct ph. simpl in Hph.
      by subst. }
    pose proof (edit_phone_loop_present old_text new_text pre ph post [] self
                  Hself Hpre Hph) as Hrun.
    cbn [length app] in Hrun. rewrite <- Hself in Hrun. rewrite Hrun.
    destruct (Phone_init new_text) as [e | p] eqn:Hp.
    + left. rewrite (Phone_init_err _ _ Hp). split; [done|]. split; [|done].
      by eexists.
    + right. apply Phone_init_ok in Hp as ->. split; [done|]. split; [done|].
      by exists pre, ph, post.
Qed.

(** X24. [change] for a contact of the book: when the contact does not have
    the old phone, or [Phone] rejects the new one, it answers "Give me name
    and phone please." and changes nothing; otherwise it confirms the
    change, the contact has the new phone, trimmed, and as many phones as
    before, and the other records and the entries of the book are as they
    were. *)
Theorem change_contact_spec (st : State) (nm old_text new_text : string)
        (l : loc) (r : Record_) :
  (AddressBook.find nm st).1 = ok (Some l) → heap st !! l = Some r →
  (¬ In (mkPhone old_text) (phones r) ∨ (∃ e, Phone_init new_text = inl e) →
     input_error change_contact [nm; old_text; new_text] st
     = ("Give me name and phone please.", st))
  ∧ (In (mkPhone old_text) (phones r) → ∀ p, Phone_init new_text = ok p →
     phone_value p = strip new_text
     ∧ ∃ st' r',
       input_error change_contact [nm; old_text; new_text] st
       = ("Contact '" +:+ nm +:+ "': phone '" +:+ old_text +:+ "' changed to '"
          +:+ new_text +:+ "'.", st')
       ∧ data st' = data st ∧ heap st' = <[l := r']> (heap st)
       ∧ name r' = name r ∧ birthday r' = birthday r
       ∧ length (phones r') = length (phones r)
       ∧ In p (phones r')).
Proof.
  cbv [AddressBook.find bind get ret fst]. intros [= Hget] Hr.
  assert (input_error change_contact [nm; old_text; new_text] st
          = input_error (λ _, bind (at_ l (edit_phone old_text new_text))
                                   (λ _, ret ("Contact '" +:+ nm +:+ "': phone '"
                                              +:+ old_text +:+ "' changed to '"
                                              +:+ new_text +:+ "'."))) [] st) as ->.
  { cbv [input_error change_contact unpack3 bind lift get ret ok AddressBook.find].
    by rewrite Hget. }
  unfold input_error, bind.
  destruct (edit_phone_outcome r old_text new_text)
    as [[Hno Hrun] | [(Hin & [e He] & Hrun)
                      | (Hin & Hok & pre & ph & post & Hr' & Hrun)]].
  - split; [|done]. intros _.
    rewrite (at_unchanged _ _ _ r Hr); by rewrite Hrun.
  - split; [|intros _ p Hp; by rewrite He in Hp]. intros _.
    rewrite (at_unchanged _ _ _ r Hr); by rewrite Hrun.
  - split; [intros [? | [e He]]; [done | by rewrite He in Hok]|].
    intros _ p Hp. rewrite Hok in Hp. injection Hp as <-. split; [done|].
    rewrite (at_run _ _ _ r Hr), Hrun. cbn [fst snd]. eexists _, _.
    split; [reflexivity|]. cbn [data heap name birthday phones].
    split; [done|]. split; [done|]. split; [done|]. split; [done|]. split.
    + cbn [phones]. rewrite Hr', !length_app. reflexivity.
    + apply in_or_app. right. by left.
Qed.

Lemma change_contact_spec_witness :
  let st := mkState [mkRecord (mkName "Ann")
                              [mkPhone "0501234567"; mkPhone "0671234567"] None]
                    [("Ann", 0)] in
  input_error change_contact ["Ann"; "0931234567"; "0500000000"] st
  = ("Give me name and phone please.", st)
  ∧ ∃ st' r',
      input_error change_contact ["Ann"; "0671234567"; "0500000000"] st
      = ("Contact 'Ann': phone '0671234567' changed to '0500000000'.", st')
      ∧ heap st' = <[0 := r']> (heap st)
      ∧ In (mkPhone "0500000000") (phones r').
Proof.
  intros st. split.
  - apply (proj1 (change_contact_spec st "Ann" "0931234567" "0500000000" 0
                    (mkRecord (mkName "Ann")
                              [mkPhone "0501234567"; mkPhone "0671234567"] None)
                    eq_refl eq_refl)).
    left. intros [[=] | [[=] | []]].
  - destruct (λ Hin, proj2 (change_contact_spec st "Ann" "0671234567" "0500000000" 0
                       (mkRecord (mkName "Ann")
                                 [mkPhone "0501234567"; mkPhone "0671234567"] None)
                       eq_refl eq_refl) Hin (mkPhone "0500000000"))
      as (_ & st' & r' & Hrun & _ & Hheap & _ & _ & _ & Hin).
    + right. left. reflexivity.
    + reflexivity.
    + exists st', r'. split; [exact Hrun|]. split; [exact Hheap | exact Hin].
Defined.

(** ** Parsing a line of input *)

Lemma split_cons_space c s : is_space c = true → split (String c s) = split s.
Proof. intros Hc. simpl. by rewrite Hc. Qed.

Lemma split_cons_word c s :
  is_space c = false →
  split (String c s)
  = match s with
    | "" => [String c ""]
    | String c' _ =>
        if is_space c' then String c "" :: split s
        else match split s with
             | t :: ts => String c t :: ts
             | [] => [String c ""]
             end
    end.
Proof. intros Hc. simpl. by rewrite Hc. Qed.

Lemma split_words s : Forall word (split s).
Proof.
  induction s as [|c s IH]; [constructor|].
  assert (is_space c = false → word (String c "")) as Hone.
  { intros Hc. split; [done|]. apply no_space_cons. split; [done|]. by intros ? []. }
  destruct (is_space c) eqn:Hc; [by rewrite split_cons_space|].
  rewrite (split_cons_word _ _ Hc).
  destruct s as [|c' s']; [by repeat constructor; apply Hone|].
  destruct (is_space c'); [constructor; [by apply Hone | done]|].
  destruct (split (String c' s')) as [|t ts]; [by repeat constructor; apply Hone|].
  inversion IH as [|? ? [_ Ht] Hts]; subst. constructor; [|done].
  split; [done|]. by apply no_space_cons.
Qed.

Lemma split_lstrip s : split (lstrip s) = split s.
Proof.
  induction s as [|c s IH]; [done|]. simpl lstrip.
  destruct (is_space c) eqn:Hc; [|done]. by rewrite split_cons_space.
Qed.

Lemma split_rstrip s : split (rstrip s) = split s.
Proof.
  induction s as [|c s IH]; [done|]. rewrite rstrip_cons.
  destruct (rstrip s) as [|c1 r1] eqn:Hr.
  - simpl in IH. destruct (is_space c) eqn:Hc.
    + by rewrite split_cons_space by done.
    + rewrite !(split_cons_word _ _ Hc), <- IH. destruct s as [|c' s']; [done|].
      by destruct (is_space c').
  - destruct (rstrip_head _ _ _ Hr) as (s' & ->).
    destruct (is_space c) eqn:Hc.
    + by rewrite !(split_cons_space c) by done.
    + by rewrite !(split_cons_word _ _ Hc), IH.
Qed.

Lemma split_strip s : split (strip s) = split s.
Proof. unfold strip. by rewrite split_rstrip, split_lstrip. Qed.

Lemma parse_input_split user_input :
  parse_input user_input
  = match split user_input with
    | [] => ("", [])
    | cmd :: args => (lower cmd, args)
    end.
Proof. unfold parse_input. by rewrite split_strip. Qed.

Lemma split_blank s : blank s ↔ split s = [].
Proof.
  induction s as [|c s IH].
  - split; [done|]. by intros _ ? [].
  - destruct (is_space c) eqn:Hc.
    + rewrite split_cons_space, <- IH by done. split.
      * intros Hb c' Hc'. apply Hb. by right.
      * intros Hb c' [<- | Hc']; [done | by apply Hb].
    + split.
      * intros Hb. specialize (Hb c (or_introl eq_refl)). congruence.
      * rewrite (split_cons_word _ _ Hc). destruct s as [|c' s']; [done|].
        destruct (is_space c'); [done|]. by destruct (split (String c' s')).
Qed.

Lemma split_blank_app pad s : blank pad → split (pad +:+ s) = split s.
Proof.
  induction pad as [|c pad IH]; [done|]. intros Hb. rewrite app_cons.
  rewrite split_cons_space by (apply Hb; by left).
  apply IH. intros c' Hc'. apply Hb. by right.
Qed.

Lemma rstrip_blank pad : blank pad → rstrip pad = "".
Proof.
  induction pad as [|c pad IH]; [done|]. intros Hb. rewrite rstrip_cons.
  rewrite IH by (intros c' Hc'; apply Hb; by right).
  by rewrite (Hb c (or_introl eq_refl)).
Qed.

Lemma rstrip_app_blank s pad : blank pad → rstrip (s +:+ pad) = rstrip s.
Proof.
  intros Hb. induction s as [|c s IH]; [by apply rstrip_blank|].
  by rewrite app_cons, !rstrip_cons, IH.
Qed.

Lemma split_app_blank s pad : blank pad → split (s +:+ pad) = split s.
Proof.
  intros Hb. by rewrite <- split_rstrip, (rstrip_app_blank _ _ Hb), split_rstrip.
Qed.

Lemma split_word w : word w → split w = [w].
Proof.
  intros [Hne Hw]. induction w as [|c w IH]; [done|].
  apply no_space_cons in Hw as [Hc Hw]. rewrite (split_cons_word _ _ Hc).
  destruct w as [|c' w']; [done|].
  rewrite (IH ltac:(done) Hw).
  apply no_space_cons in Hw as [-> _]. done.
Qed.

Lemma split_word_app w rest :
  word w → split (w +:+ " " +:+ rest) = w :: split rest.
Proof.
  intros [Hne Hw]. induction w as [|c w IH]; [done|].
  apply no_space_cons in Hw as [Hc Hw]. rewrite app_cons, (split_cons_word _ _ Hc).
  destruct w as [|c' w'].
  - rewrite app_empty_l. change (" " +:+ rest) with (String " " rest).
    change (is_space " ") with true. cbv iota. by rewrite split_cons_space.
  - rewrite (IH ltac:(done) Hw). rewrite app_cons.
    apply no_space_cons in Hw as [-> _]. done.
Qed.

Lemma split_join ws : Forall word ws → split (join " " ws) = ws.
Proof.
  induction 1 as [|w ws Hw Hws IH]; [done|].
  destruct ws as [|w' ws']; [by apply split_word|].
  change (join " " (w :: w' :: ws')) with (w +:+ " " +:+ join " " (w' :: ws')).
  by rewrite (split_word_app _ _ Hw), IH.
Qed.

Lemma lower_char_space c : is_space (lower_char c) = is_space c.
Proof. by destruct c as [[] [] [] [] [] [] [] []]. Qed.

Lemma lower_char_idem c : lower_char (lower_char c) = lower_char c.
Proof. by destruct c as [[] [] [] [] [] [] [] []]. Qed.

Lemma lower_idem s : lower (lower s) = lower s.
Proof. induction s as [|c s IH]; [done|]. simpl. by rewrite lower_char_idem, IH. Qed.

Lemma lower_no_space s : no_space s → no_space (lower s).
Proof.
  induction s as [|c s IH]; [done|]. simpl. rewrite !no_space_cons.
  intros [Hc Hs]. split; [by rewrite lower_char_space | by apply IH].
Qed.

(** X25. What [parse_input] returns for any line: the command is in lower
    case and has no whitespace, every argument is a word (not empty, no
    whitespace), and the command is empty exactly when the line is blank, in
    which case there is no argument. *)
Theorem parse_input_words (user_input : string) :
  let '(command, args) := parse_input user_input in
  lower command = command ∧ no_space command ∧ Forall word args
  ∧ (command = "" ↔ blank user_input) ∧ (command = "" → args = []).
Proof.
  rewrite parse_input_split. pose proof (split_words user_input) as Hws.
  pose proof (split_blank user_input) as Hb.
  destruct (split user_input) as [|cmd args].
  - split; [done|]. split; [by intros ? []|]. split; [done|]. split; [|done].
    split; [intros _; by apply Hb | done].
  - inversion Hws as [|? ? [Hne Hcmd] Hargs]; subst.
    split; [apply lower_idem|]. split; [by apply lower_no_space|]. split; [done|].
    assert (lower cmd ≠ "") as Hl by (by destruct cmd).
    split; [|done]. split; [done|]. intros Hblank. by apply Hb in Hblank.
Qed.

(** X26. A line made of words separated by one space, with any whitespace
    before and after, parses to its first word in lower case and the other
    words as the arguments. *)
Theorem parse_input_join (pad1 pad2 cmd : string) (args : list string) :
  blank pad1 → blank pad2 → word cmd → Forall word args →
  parse_input (pad1 +:+ join " " (cmd :: args) +:+ pad2) = (lower cmd, args).
Proof.
  intros H1 H2 Hcmd Hargs.
  rewrite parse_input_split, (split_blank_app _ _ H1), (split_app_blank _ _ H2).
  by rewrite split_join by (by constructor).
Qed.

(** ** Listings *)

Lemma for_each_ok {A} (f : Record_ → A) (ls : list loc) (st : State) :
  Forall (λ l, is_Some (heap st !! l)) ls →
  for_each f ls st = (ok (map f (omap (λ l, heap st !! l) ls)), st).
Proof.
  induction 1 as [|l ls [r Hl] _ IH]; [done|].
  cbn [for_each omap list_omap]. cbv [bind deref ret]. rewrite Hl, IH. reflexivity.
Qed.

Lemma book_allocated st :
  key_is_name st → Forall (λ l, is_Some (heap st !! l)) (dict_values (data st)).
Proof.
  intros Hinv. apply List.Forall_forall. intros l Hl.
  apply in_map_iff in Hl as ([k l'] & <- & Hin).
  destruct (Hinv k l' Hin) as (r & Hr & _). by exists r.
Qed.

Lemma records_of_names st :
  key_is_name st →
  map (λ r, name_value (name r)) (records_of st) = dict_keys (data st).
Proof.
  unfold key_is_name, records_of, dict_keys, dict_values.
  induction (data st) as [|[k l] d IH]; intros Hinv; [done|].
  destruct (Hinv k l (or_introl eq_refl)) as (r & Hr & Hk).
  cbn [fmap list_fmap omap list_omap fst snd]. rewrite Hr. cbn [map].
  rewrite Hk. f_equal. apply IH. intros k' l' Hin. apply Hinv. by right.
Qed.

Section Listings.
Context `{Platform}.

(** X27. In a state reached from the empty book, [all] and the rendering of
    the book give one line for each contact, in the order the names entered
    the book, and the name on each line is the key of the contact; an empty
    book gives "No contacts saved." and "<AddressBook: empty>". *)
Theorem listing_spec (st : State) (args : list string) :
  reachable st →
  map (λ r, name_value (name r)) (records_of st) = dict_keys (data st)
  ∧ input_error show_all args st
    = (match data st with
       | [] => "No contacts saved."
       | _ => join newline (map contact_line (records_of st))
       end, st)
  ∧ AddressBook_str st
    = (ok (match data st with
           | [] => "<AddressBook: empty>"
           | _ => join newline (map Record_str (records_of st))
           end), st).
Proof.
  intros Hst. apply reachable_book_ok in Hst as [Hinv _].
  split; [by apply records_of_names|].
  pose proof (book_allocated st Hinv) as Hall.
  cbv [input_error show_all AddressBook_str bind get ret].
  unfold records_of. destruct (data st) as [|e d]; [done|].
  by rewrite !for_each_ok by done.
Qed.
End Listings.

Lemma listing_spec_witness :
  let st := foldl (λ s o, exec o s) empty_state
              [NewRecord "John"; AddPhone 0 "0501234567"; AddRecord 0;
               NewRecord "Jane"; AddRecord 1; AddPhone 0 "0671234567"] in
  input_error show_all [] st
  = ("John: phones: 0501234567; 0671234567" +:+ newline +:+ "Jane: phones: No phones",
     st).
Proof.
  intros st.
  apply (proj1 (proj2 (@listing_spec glibc st []
                         ltac:(repeat apply reachable_step; apply reachable_empty)))).
Defined.

(** ** [add] and [phone] *)

Lemma phones_str_snoc ps p :
  phones_str (ps ++ [p]) = join "; " (map phone_value (ps ++ [p])).
Proof. by destruct ps. Qed.

(** X28. After [add] with a valid phone for the name [nm] in a state
    reached from the empty book, [phone nm] answers with the phones the
    contact had before, followed by the new one with its surrounding
    whitespace removed. *)
Theorem add_then_show_phone (st : State) (nm phone : string) :
  reachable st → word nm → ten_digits (strip phone) →
  let st' := (input_error add_contact [nm; phone] st).2 in
  input_error show_phone [nm] st'
  = (nm +:+ ": "
     +:+ join "; " (map phone_value (phones_of st nm ++ [mkPhone (strip phone)])),
     st').
Proof.
  intros Hst [Hne Hnm] Hten. apply reachable_book_ok in Hst as [Hinv _].
  destruct (add_contact_run st nm phone Hten) as [Hnew Hold].
  unfold phones_of.
  destruct (dict_get nm (data st)) as [l|] eqn:Hget.
  - destruct (Hinv nm l (dict_get_In _ _ _ Hget)) as (r & Hr & _).
    rewrite Hr. rewrite (Hold l r) by (by cbv [AddressBook.find bind get ret fst];
                                       rewrite ?Hget).
    cbv [input_error show_phone index0 bind lift get ret ok AddressBook.find deref
         snd].
    cbn [data heap]. rewrite Hget. cbn [data heap].
    rewrite list_lookup_insert_eq by (by eapply lookup_lt_Some).
    cbn [phones]. by rewrite phones_str_snoc.
  - rewrite Hnew; [|by cbv [AddressBook.find bind get ret fst]; rewrite ?Hget
                   |by rewrite (strip_no_space _ Hnm)].
    rewrite (strip_no_space _ Hnm).
    cbv [input_error show_phone index0 bind lift get ret ok AddressBook.find deref
         snd].
    cbn [data heap]. rewrite dict_get_set_eq. cbn [data heap].
    rewrite list_lookup_middle by done. done.
Qed.

Lemma add_then_show_phone_witness :
  let st := foldl (λ s o, exec o s) empty_state
              [NewRecord "John"; AddPhone 0 "0501234567"; AddRecord 0] in
  input_error show_phone ["John"] (input_error add_contact ["John"; " 0671234567"] st).2
  = ("John: 0501234567; 0671234567",
     (input_error add_contact ["John"; " 0671234567"] st).2).
Proof.
  intros st.
  apply (add_then_show_phone st "John" " 0671234567").
  - repeat apply reachable_step. apply reachable_empty.
  - split; [done|]. intros c Hc. vm_compute in Hc.
    repeat (destruct Hc as [<- | Hc]; [reflexivity|]). destruct Hc.
  - apply ten_digitsb_spec. reflexivity.
Defined.

(** ** Witnesses for parsing *)

Lemma parse_input_join_witness :
  parse_input "  ADD John 0501234567 " = ("add", ["John"; "0501234567"]).
Proof.
  apply (parse_input_join "  " " " "ADD" ["John"; "0501234567"]).
  - intros c Hc. vm_compute in Hc.
    repeat (destruct Hc as [<- | Hc]; [reflexivity|]). destruct Hc.
  - intros c Hc. vm_compute in Hc.
    repeat (destruct Hc as [<- | Hc]; [reflexivity|]). destruct Hc.
  - split; [done|]. intros c Hc. vm_compute in Hc.
    repeat (destruct Hc as [<- | Hc]; [reflexivity|]). destruct Hc.
  - repeat constructor; try done; intros c Hc; vm_compute in Hc;
      repeat (destruct Hc as [<- | Hc]; [reflexivity|]); destruct Hc.
Defined.
